(** * The buffered emitter of aio_snowplow_tracker (emitters.py)

    A shallow embedding of [Emitter]: the endpoint builder, the buffer with
    its flush thresholds, the GET and POST dispatch, the routing of the
    outcome to the callbacks and the periodic flush.

    Python objects that are mutated and shared (the payload dictionaries)
    live in a store indexed by references; the emitter's own attributes are
    a record threaded through a state-and-exception monad, together with a
    trace of what the emitter did to the outside world (requests issued,
    callbacks invoked). *)

From Stdlib Require Import ZArith QArith.
From stdpp Require Import base option list gmap strings pretty fin_maps.

Open Scope string_scope.
Open Scope list_scope.
Open Scope Z_scope.

(** ** Python values and payload dictionaries *)

(** Exceptions that can travel through the emitter.  aiohttp derives its own
    errors from [aiohttp.ClientError] (connection failures, disconnects, the
    socket-level timeouts); the expiry of a request's total timeout surfaces
    as [asyncio.TimeoutError], which is not a [ClientError]. *)
Inductive Exn :=
  | ValueError (msg : string)
  | ClientConnectorError
  | ServerDisconnectedError
  | ServerTimeoutError
  | AsyncioTimeoutError.

(** [isinstance(e, aiohttp.ClientError)] *)
Definition is_ClientError (e : Exn) : bool :=
  match e with
  | ClientConnectorError | ServerDisconnectedError | ServerTimeoutError => true
  | ValueError _ | AsyncioTimeoutError => false
  end.

Inductive result (A : Type) :=
  | Ok (a : A)
  | Raise (e : Exn).
Arguments Ok {A} a.
Arguments Raise {A} e.

(** ** Endpoint builder *)

Definition DEFAULT_MAX_LENGTH : Z := 10.
Definition PAYLOAD_DATA_SCHEMA : string :=
  "iglu:com.snowplowanalytics.snowplow/payload_data/jsonschema/1-0-4".
Definition PROTOCOLS : list string := ["http"; "https"].
Definition METHODS : list string := ["get"; "post"].

(** [str(port)] for a Python int. *)
Definition str_int (n : Z) : string := pretty n.

Definition as_collector_uri
    (endpoint protocol : string) (port : option Z) (method : string)
    : result string :=
  if decide (String.length endpoint < 1)%nat then
    Raise (ValueError "No endpoint provided.")
  else
    let path :=
      if decide (method = "get") then "/i"
      else "/com.snowplowanalytics.snowplow/tp2" in
    match port with
    | None => Ok (protocol +:+ "://" +:+ endpoint +:+ path)
    | Some p => Ok (protocol +:+ "://" +:+ endpoint +:+ ":" +:+ str_int p +:+ path)
    end.

(** The shape the specification gives to the collector URI. *)
Definition route (method : string) : string :=
  if decide (method = "get") then "/i" else "/com.snowplowanalytics.snowplow/tp2".

Definition port_segment (port : option Z) : string :=
  match port with
  | None => ""
  | Some p => ":" +:+ str_int p
  end.

Definition uri_shape (host protocol : string) (port : option Z) (method : string) : string :=
  protocol +:+ "://" +:+ host +:+ port_segment port +:+ route method.

(** ** Values, payloads and the store *)

(** References to payload dictionaries: a dictionary handed to the emitter is
    shared with the caller, so its identity matters. *)
Abbreviation loc := positive.

(** [time.time()] returns a float; every finite float is a rational, and
    [int] truncates towards zero. *)
Definition int_of_float (t : Q) : Z := Z.quot (Qnum t) (Z.pos (Qden t)).

(** [is_good_status_code] *)
Definition is_good_status_code (status_code : Z) : bool :=
  (200 <=? status_code) && (status_code <? 400).

(** [request_timeout]: one float, or a connect/read pair. *)
Inductive Timeout :=
  | Single (t : Q)
  | ConnectRead (connect read : Q).

(** Modelled from the spec: the handle kept in [self.timer], a Timer of
    _timer.py, which is not among the sources: "a cancellable, rescheduling
    delay primitive that invokes a callback after an interval". *)
Record Timer := mkTimer {
  interval : Q;
  cancelled : bool
}.

(** Values: the scalars, and whatever else a payload may hold (floats, nested
    lists and dictionaries, ...) as [VOther]. *)
Inductive value (other : Type) :=
  | VNone
  | VBool (b : bool)
  | VInt (n : Z)
  | VStr (s : string)
  | VOther (o : other).
Arguments VNone {other}.
Arguments VBool {other} b.
Arguments VInt {other} n.
Arguments VStr {other} s.
Arguments VOther {other} o.

(** A request as aiohttp receives it, and how it ends: with a response, or
    with an exception. *)
Inductive Request (other : Type) :=
  | POST (uri : string) (data : string)
         (headers : list (string * string)) (timeout : option Timeout)
  | GET (uri : string) (params : gmap string (value other)) (timeout : option Timeout).
Arguments POST {other} uri data headers timeout.
Arguments GET {other} uri params timeout.

Inductive Reply :=
  | Status (code : Z)
  | Fails (e : Exn).

(** What the emitter takes from its surroundings: Python's [str], the JSON
    envelope, the clock and the collector. *)
Class Runtime := {
  other : Type;
  (** [str(v)] on a value that is not one of the scalars *)
  str_other : other -> string;
  (** [str(payload)] on a dictionary, whose length feeds the byte count *)
  str_payload : gmap string (value other) -> string;
  (** [SelfDescribingJson(schema, data).to_string()]; self_describing_json.py
      is not among the sources *)
  to_string : string -> list (gmap string (value other)) -> string;
  (** the value of the n-th reading of [time.time()] *)
  time_time : nat -> Q;
  (** the fate of the n-th request the emitter issues *)
  transport : nat -> Request other -> Reply
}.

(** A payload: a dictionary from string keys to values. *)
Abbreviation PayloadDict := (gmap string (value other)).

Section Emitter.

Context {R : Runtime}.

(** [str(v)] *)
Definition py_str (v : value other) : string :=
  match v with
  | VNone => "None"
  | VBool true => "True"
  | VBool false => "False"
  | VInt n => str_int n
  | VStr s => s
  | VOther o => str_other o
  end.

(** The second argument of the failure callback, as the constructor's
    docstring types it: the unsent data in string form, or the unsent
    events' payloads. *)
Inductive Unsent :=
  | UnsentData (data : string)
  | UnsentEvents (evts : list loc).

Inductive Event :=
  | Sent (r : Request other) (reply : Reply)
  | OnSuccess (evts : list loc)
  | OnFailure (sent : Z) (unsent : Unsent).

(** The world outside the emitter's attributes: the store of payload
    dictionaries, what the emitter did so far, and how often it read the clock
    and called the collector. *)
Record World := mkWorld {
  heap : gmap loc PayloadDict;
  trace : list Event;
  clock_reads : nat;
  requests : nat
}.

(** A callback is opaque to the emitter and is taken to return:
    [on_success] and [on_failure] record whether one is registered, and a call
    is an entry of the trace.  What a callback itself raises or changes is
    outside the emitter and outside this model. *)
Record Emitter := mkEmitter {
  endpoint : string;
  method : string;
  buffer_size : Z;
  buffer : list loc;
  byte_limit : option Z;
  bytes_queued : option Z;
  request_timeout : option Timeout;
  client_session : bool;
  on_success : bool;
  on_failure : bool;
  timer : option Timer
}.

Definition set_buffer (b : list loc) (e : Emitter) : Emitter :=
  mkEmitter (endpoint e) (method e) (buffer_size e) b (byte_limit e)
    (bytes_queued e) (request_timeout e) (client_session e)
    (on_success e) (on_failure e) (timer e).

Definition set_bytes_queued (q : option Z) (e : Emitter) : Emitter :=
  mkEmitter (endpoint e) (method e) (buffer_size e) (buffer e) (byte_limit e)
    q (request_timeout e) (client_session e)
    (on_success e) (on_failure e) (timer e).

Definition set_timer (t : option Timer) (e : Emitter) : Emitter :=
  mkEmitter (endpoint e) (method e) (buffer_size e) (buffer e) (byte_limit e)
    (bytes_queued e) (request_timeout e) (client_session e)
    (on_success e) (on_failure e) t.

Definition set_heap (h : gmap loc PayloadDict) (w : World) : World :=
  mkWorld h (trace w) (clock_reads w) (requests w).

Definition emit (ev : Event) (w : World) : World :=
  mkWorld (heap w) (trace w ++ [ev]) (clock_reads w) (requests w).

(** *** The monad: emitter attributes and world, with exceptions *)

Definition St : Type := Emitter * World.
Definition M (A : Type) : Type := St -> result A * St.

Definition ret {A} (a : A) : M A := fun st => (Ok a, st).
Definition raise {A} (e : Exn) : M A := fun st => (Raise e, st).
Definition bind {A B} (m : M A) (k : A -> M B) : M B :=
  fun st =>
    match m st with
    | (Ok a, st') => k a st'
    | (Raise e, st') => (Raise e, st')
    end.

Notation "'do' x <- m ; k" := (bind m (fun x => k))
  (at level 10, x name, m at level 100, k at level 200).
Notation "m ;; k" := (bind m (fun _ => k))
  (at level 100, k at level 200, right associativity).

Definition self : M Emitter := fun st => (Ok (fst st), st).
Definition the_world : M World := fun st => (Ok (snd st), st).
Definition modify_self (f : Emitter -> Emitter) : M unit :=
  fun st => (Ok tt, (f (fst st), snd st)).
Definition modify_world (f : World -> World) : M unit :=
  fun st => (Ok tt, (fst st, f (snd st))).

(** The dictionary a reference denotes. *)
Definition deref (h : gmap loc PayloadDict) (l : loc) : PayloadDict :=
  default ∅ (h !! l).

Definition now : M Q := fun st =>
  let w := snd st in
  (Ok (time_time (clock_reads w)),
   (fst st, mkWorld (heap w) (trace w) (S (clock_reads w)) (requests w))).

(** One request: the collector's reply is recorded and returned. *)
Definition request (r : Request other) : M Reply := fun st =>
  let w := snd st in
  let reply := transport (requests w) r in
  (Ok reply,
   (fst st, mkWorld (heap w) (trace w ++ [Sent r reply]) (clock_reads w)
                    (S (requests w)))).

Definition when (b : bool) (m : M unit) : M unit := if b then m else ret tt.

(** [for x in xs: body x] *)
Fixpoint for_each {A} (xs : list A) (body : A -> M unit) : M unit :=
  match xs with
  | [] => ret tt
  | x :: xs' => body x ;; for_each xs' body
  end.

(** *** The emitter's methods *)

(** Modelled from the spec: [one_of] of contracts.py, which is not among the
    sources; an "invalid protocol" or "invalid method" is "fatal, raised
    immediately, never silently defaulted". *)
Definition one_of (x : string) (xs : list string) : result unit :=
  if decide (x ∈ xs) then Ok tt else Raise (ValueError "not one of the allowed values").

(** [__init__] *)
Definition __init__
    (endpoint protocol : string) (port : option Z) (method : string)
    (buffer_size : option Z) (on_success on_failure : bool)
    (byte_limit : option Z) (request_timeout : option Timeout)
    (client_session : bool) : result Emitter :=
  match one_of protocol PROTOCOLS with
  | Raise e => Raise e
  | Ok _ =>
    match one_of method METHODS with
    | Raise e => Raise e
    | Ok _ =>
      match as_collector_uri endpoint protocol port method with
      | Raise e => Raise e
      | Ok uri =>
          Ok (mkEmitter uri method
                (match buffer_size with
                 | Some n => n
                 | None => if decide (method = "post") then DEFAULT_MAX_LENGTH else 1
                 end)
                [] byte_limit
                (match byte_limit with None => None | Some _ => Some 0 end)
                request_timeout client_session on_success on_failure None)
      end
    end
  end.

(** [reached_limit] *)
Definition reached_limit (e : Emitter) : bool :=
  match byte_limit e with
  | None => Z.of_nat (length (buffer e)) >=? buffer_size e
  | Some limit =>
      (default 0 (bytes_queued e) >=? limit)
      || (Z.of_nat (length (buffer e)) >=? buffer_size e)
  end.

(** The value [attach_sent_timestamp] stores for a clock reading [t]:
    [str(int(time.time()) * 1000)]. *)
Definition sent_timestamp (t : Q) : value other :=
  VStr (str_int (int_of_float t * 1000)).

(** [attach_sent_timestamp]: the inner [update] reads the clock once per
    event and mutates the dictionary behind the reference. *)
Definition update (l : loc) : M unit :=
  do t <- now;
  modify_world (fun w => set_heap (alter (<["stm" := sent_timestamp t]>) l (heap w)) w).

Definition attach_sent_timestamp (events : list loc) : M unit :=
  for_each events update.

Definition CONTENT_TYPE : list (string * string) :=
  [("Content-Type", "application/json; charset=utf-8")].

(** What both [http_post] and [http_get] do with the reply: the status
    decides, a [ClientError] is logged and leaves the flag at [False], any
    other exception travels on.  Opening and closing the session touches
    nothing of the emitter and is left out, as is the logging. *)
Definition succeeded (reply : Reply) : M bool :=
  match reply with
  | Status code => ret (is_good_status_code code)
  | Fails e => if is_ClientError e then ret false else raise e
  end.

(** [http_post] *)
Definition http_post (data : string) : M bool :=
  do e <- self;
  do reply <- request (POST (endpoint e) data CONTENT_TYPE (request_timeout e));
  succeeded reply.

(** [http_get] *)
Definition http_get (l : loc) : M bool :=
  do e <- self;
  do w <- the_world;
  do reply <- request (GET (endpoint e) (deref (heap w) l) (request_timeout e));
  succeeded reply.

(** The [for evt in evts] loop of the GET branch of [send_events], with its
    two accumulators. *)
Fixpoint get_each (evts success_events failure_events : list loc)
    : M (list loc * list loc) :=
  match evts with
  | [] => ret (success_events, failure_events)
  | evt :: evts' =>
      do request_succeeded <- http_get evt;
      if request_succeeded : bool
      then get_each evts' (success_events ++ [evt]) failure_events
      else get_each evts' success_events (failure_events ++ [evt])
  end.

(** [send_events] *)
Definition send_events (evts : list loc) : M unit :=
  if (0 <? length evts)%nat then
    attach_sent_timestamp evts ;;
    do e <- self;
    do sf <-
      (if decide (method e = "post") then
         do w <- the_world;
         let data := to_string PAYLOAD_DATA_SCHEMA (deref (heap w) <$> evts) in
         do request_succeeded <- http_post data;
         if request_succeeded : bool then ret ([] ++ evts, []) else ret ([], [] ++ evts)
       else if decide (method e = "get") then
         get_each evts [] []
       else ret ([], []));
    let success_events := fst sf in
    let failure_events := snd sf in
    when (on_success e && (0 <? length success_events)%nat)
      (modify_world (emit (OnSuccess success_events))) ;;
    when (on_failure e && (0 <? length failure_events)%nat)
      (modify_world (emit (OnFailure (Z.of_nat (length success_events))
                                     (UnsentEvents failure_events))))
  else ret tt.

(** [_flush_unsafe] *)
Definition _flush_unsafe : M unit :=
  do e <- self;
  send_events (buffer e) ;;
  modify_self (set_buffer []) ;;
  do e' <- self;
  when (bool_decide (is_Some (bytes_queued e')))
    (modify_self (set_bytes_queued (Some 0))).

(** [input]; the lock is held for the whole body, which runs here as one
    step. *)
Definition input (payload : loc) : M unit :=
  do e <- self;
  do w <- the_world;
  let d := deref (heap w) payload in
  when (bool_decide (is_Some (bytes_queued e)))
    (modify_self (set_bytes_queued
       (Some (default 0 (bytes_queued e) + Z.of_nat (String.length (str_payload d)))))) ;;
  (if decide (method e = "post") then
     let l := fresh (dom (heap w)) in
     modify_world (set_heap (<[l := (fun v => VStr (py_str v)) <$> d]> (heap w))) ;;
     modify_self (fun e => set_buffer (buffer e ++ [l]) e)
   else
     modify_self (fun e => set_buffer (buffer e ++ [payload]) e)) ;;
  do e' <- self;
  when (reached_limit e') _flush_unsafe.

(** [flush] *)
Definition flush : M unit := _flush_unsafe.

(** [sync_flush] *)
Definition sync_flush : M unit := flush.

(** [set_flush_timer] *)
Definition set_flush_timer (timeout : Q) (flush_now : bool) : M unit :=
  when flush_now flush ;;
  modify_self (set_timer (Some (mkTimer timeout false))).

(** [cancel_flush_timer] *)
Definition cancel_flush_timer : M unit :=
  modify_self (fun e =>
    match timer e with
    | Some t => set_timer (Some (mkTimer (interval t) true)) e
    | None => e
    end).

(** Modelled from the spec: the Timer of _timer.py, which is not among the
    sources.  It is "a cancellable, rescheduling delay primitive that invokes
    a callback after an interval"; the emitter arms it with the callback
    [set_flush_timer] and the arguments [[timeout, True]], so a tick of a
    pending timer runs that call, and a cancelled timer never fires. *)
Definition tick : M unit :=
  do e <- self;
  match timer e with
  | Some t => if cancelled t then ret tt else set_flush_timer (interval t) true
  | None => ret tt
  end.

(** *** What the operations compute, in closed form *)

(** The store after [attach_sent_timestamp], the clock having been read
    [n] times before. *)
Fixpoint stamped (n : nat) (evts : list loc) (h : gmap loc PayloadDict)
    : gmap loc PayloadDict :=
  match evts with
  | [] => h
  | l :: evts' =>
      stamped (S n) evts' (alter (<["stm" := sent_timestamp (time_time n)]>) l h)
  end.

(** A reply that counts as a sent event. *)
Definition good (reply : Reply) : bool :=
  match reply with
  | Status code => is_good_status_code code
  | Fails _ => false
  end.

(** A reply that [http_post] and [http_get] turn into a flag: a status of
    any kind, or an exception of aiohttp's own. *)
Definition absorbed (reply : Reply) : bool :=
  match reply with
  | Status _ => true
  | Fails e => is_ClientError e
  end.

(** The collector and the network between raise nothing but exceptions of
    aiohttp's own. *)
Definition raises_only_ClientError : Prop :=
  forall n r, absorbed (transport n r) = true.

(** One GET request per event, in batch order, the [n]-th request of the
    emitter being the first of them. *)
Fixpoint get_replies (uri : string) (t : option Timeout)
    (h : gmap loc PayloadDict) (n : nat) (evts : list loc)
    : list (loc * Request other * Reply) :=
  match evts with
  | [] => []
  | l :: evts' =>
      let r := GET uri (deref h l) t in
      (l, r, transport n r) :: get_replies uri t h (S n) evts'
  end.

Definition sent_of (x : loc * Request other * Reply) : Event := Sent (snd (fst x)) (snd x).
Definition event_of (x : loc * Request other * Reply) : loc := fst (fst x).
Definition is_good (x : loc * Request other * Reply) : bool := good (snd x).
Definition is_bad (x : loc * Request other * Reply) : bool := negb (good (snd x)).

(** The calls [send_events] makes once the batch is split. *)
Definition callbacks (e : Emitter) (success_events failure_events : list loc)
    : list Event :=
  (if on_success e && (0 <? length success_events)%nat
   then [OnSuccess success_events] else [])
  ++ (if on_failure e && (0 <? length failure_events)%nat
      then [OnFailure (Z.of_nat (length success_events)) (UnsentEvents failure_events)]
      else []).

(** What [http_post] and [http_get] make of a reply. *)
Definition verdict (reply : Reply) : result bool :=
  match reply with
  | Status code => Ok (is_good_status_code code)
  | Fails e => if is_ClientError e then Ok false else Raise e
  end.

(** The emitter as [_flush_unsafe] leaves it. *)
Definition reset (e : Emitter) : Emitter :=
  match bytes_queued e with
  | Some _ => set_bytes_queued (Some 0) (set_buffer [] e)
  | None => set_buffer [] e
  end.

(** The dictionary [input] stores in POST mode: every value in string form. *)
Definition stringified (d : PayloadDict) : PayloadDict :=
  (fun v => VStr (py_str v)) <$> d.

(** The reference [input] appends to the buffer: a fresh one in POST mode,
    the caller's own otherwise. *)
Definition entry (e : Emitter) (w : World) (payload : loc) : loc :=
  if decide (method e = "post") then fresh (dom (heap w)) else payload.

(** The store once [input] has appended: in POST mode it holds the new
    dictionary. *)
Definition with_entry (e : Emitter) (w : World) (payload : loc) : World :=
  if decide (method e = "post")
  then set_heap (<[fresh (dom (heap w)) := stringified (deref (heap w) payload)]> (heap w)) w
  else w.

(** The byte count as [reached_limit] reads it: [self.bytes_queued or 0]. *)
Definition byte_count (e : Emitter) : Z := default 0 (bytes_queued e).

(** The flush predicate in the specification's words: the byte count has
    reached the byte limit, if one is configured, or the buffer has reached
    [buffer_size] events. *)
Definition flush_predicate (e : Emitter) : Prop :=
  (exists limit, byte_limit e = Some limit /\ byte_count e >= limit)
  \/ Z.of_nat (length (buffer e)) >= buffer_size e.

(** The emitter once [input] has accounted for and appended the payload,
    before the threshold check. *)
Definition appended (e : Emitter) (d : PayloadDict) (l : loc) : Emitter :=
  set_buffer (buffer e ++ [l])
    (match bytes_queued e with
     | Some b => set_bytes_queued (Some (b + Z.of_nat (String.length (str_payload d)))) e
     | None => e
     end).

(** The requests a flush of [evts] has to issue, the payloads being read from
    the store [h]: none for an empty batch, else one POST carrying the whole
    batch, or one GET per event in batch order. *)
Definition requests_of (e : Emitter) (h : gmap loc PayloadDict) (evts : list loc)
    : list (Request other) :=
  match evts with
  | [] => []
  | _ :: _ =>
      if decide (method e = "post") then
        [POST (endpoint e) (to_string PAYLOAD_DATA_SCHEMA (deref h <$> evts))
              CONTENT_TYPE (request_timeout e)]
      else if decide (method e = "get") then
        (fun l => GET (endpoint e) (deref h l) (request_timeout e)) <$> evts
      else []
  end.

(** The requests recorded in a stretch of the trace. *)
Definition sent_requests (tr : list Event) : list (Request other) :=
  omap (fun ev => match ev with Sent r _ => Some r | _ => None end) tr.

(** The callback invocations recorded in a stretch of the trace. *)
Definition callback_calls (tr : list Event) : list Event :=
  List.filter (fun ev => match ev with Sent _ _ => false | _ => true end) tr.

(** *** The emitter's interface, as its users and its timer drive it *)

Inductive Op :=
  | Input (payload : loc)
  | Flush
  | SyncFlush
  | SetFlushTimer (timeout : Q) (flush_now : bool)
  | CancelFlushTimer
  | Tick.

Definition run (op : Op) : M unit :=
  match op with
  | Input payload => input payload
  | Flush => flush
  | SyncFlush => sync_flush
  | SetFlushTimer timeout flush_now => set_flush_timer timeout flush_now
  | CancelFlushTimer => cancel_flush_timer
  | Tick => tick
  end.

(** A caller that stops at the first exception. *)
Fixpoint run_all (ops : list Op) : M unit :=
  match ops with
  | [] => ret tt
  | op :: ops' => run op ;; run_all ops'
  end.

(** The attributes set at construction, and whether bytes are counted. *)
Definition same_configuration (e e' : Emitter) : Prop :=
  endpoint e' = endpoint e /\ method e' = method e
  /\ buffer_size e' = buffer_size e /\ byte_limit e' = byte_limit e
  /\ request_timeout e' = request_timeout e
  /\ client_session e' = client_session e
  /\ on_success e' = on_success e /\ on_failure e' = on_failure e
  /\ (is_Some (bytes_queued e') <-> is_Some (bytes_queued e)).

(** The bytes [input] counts for the payloads [ps], read from the store [h]. *)
Fixpoint counted_bytes (h : gmap loc PayloadDict) (ps : list loc) : Z :=
  match ps with
  | [] => 0
  | p :: ps' => Z.of_nat (String.length (str_payload (deref h p))) + counted_bytes h ps'
  end.

End Emitter.

(** ** A concrete runtime, to run the emitter on examples *)

(** Scalar payloads only; [str] of a dictionary and the JSON envelope are
    stand-ins of the right type, the clock reads [clock n] at its n-th reading
    and the collector answers the n-th request with [net n]. *)
Definition demo (clock : nat -> Q) (net : nat -> Reply) : Runtime := {|
  other := Empty_set;
  str_other := fun o => match o with end;
  str_payload := fun d => "{'e': 'pv'}";
  to_string := fun schema data =>
    "{schema: " +:+ schema +:+ ", data: ["
      +:+ String.concat ", " ((fun _ => "{...}") <$> data) +:+ "]}";
  time_time := clock;
  transport := fun n _ => net n
|}.

(** A clock stuck at 1700000000.75 seconds past the epoch. *)
Definition clock0 : nat -> Q := fun _ => (6800000003 # 4)%Q.

(** Collectors: one that answers everything with a given status, one whose
    first answer is 200 and every later one 500, and one that lets each
    request run into its total timeout. *)
Definition always (code : Z) : nat -> Reply := fun _ => Status code.
Definition first_ok_then_500 : nat -> Reply :=
  fun n => match n with O => Status 200 | S _ => Status 500 end.
Definition times_out : nat -> Reply := fun _ => Fails AsyncioTimeoutError.

(** A page view, a structured event and a page ping, as the tracker layer
    hands them over, and a store holding them. *)
Definition page_view : gmap string (value Empty_set) :=
  {[ "e" := VStr "pv"; "url" := VStr "http://www.example.com"; "tid" := VInt 7 ]}.
Definition struct_event : gmap string (value Empty_set) :=
  {[ "e" := VStr "se"; "se_ca" := VStr "shop"; "se_va" := VInt 3 ]}.
Definition page_ping : gmap string (value Empty_set) :=
  {[ "e" := VStr "pp" ]}.

Definition store : gmap loc (gmap string (value Empty_set)) :=
  {[ 1%positive := page_view; 2%positive := struct_event; 3%positive := page_ping ]}.

Definition start_world (R : Runtime) (h : gmap loc (gmap string (value other))) : World :=
  mkWorld h [] 0 0.

(** Emitters with both callbacks registered, holding [buf]: GET with a buffer
    of 2, POST with a buffer of 3 and a timeout of 5 seconds, and POST with a
    buffer of 10 and a byte limit of 20 that has [queued] bytes so far. *)
Definition get_emitter (buf : list loc) : Emitter :=
  mkEmitter "http://collector.example.com/i" "get" 2 buf None None None
            false true true None.
Definition post_emitter (buf : list loc) : Emitter :=
  mkEmitter "http://collector.example.com/com.snowplowanalytics.snowplow/tp2" "post"
            3 buf None None (Some (Single 5)) false true true None.
Definition byte_limited_emitter (buf : list loc) (queued : Z) : Emitter :=
  mkEmitter "http://collector.example.com/com.snowplowanalytics.snowplow/tp2" "post"
            10 buf (Some 20) (Some queued) None false true true None.

(** A collector whose first answer is 200 and whose every later request runs
    into its total timeout. *)
Definition ok_then_times_out : nat -> Reply :=
  fun n => match n with O => Status 200 | S _ => Fails AsyncioTimeoutError end.

(** A GET emitter that [__init__] builds when no buffer size is given. *)
Definition default_get_emitter : Emitter :=
  mkEmitter "http://collector.example.com/i" "get" 1 [] None None None
            false true true None.

(** * Correctness

    ** How the operations run *)

Section Correctness.
Context {R : Runtime}.

Notation "'do' x <- m ; k" := (bind m (fun x => k))
  (at level 10, x name, m at level 100, k at level 200).
Notation "m ;; k" := (bind m (fun _ => k))
  (at level 100, k at level 200, right associativity).

Lemma attach_sent_timestamp_run evts e w :
  attach_sent_timestamp evts (e, w)
  = (Ok tt, (e, mkWorld (stamped (clock_reads w) evts (heap w)) (trace w)
                        (clock_reads w + length evts)%nat (requests w))).
Proof.
  revert w. induction evts as [|l evts IH]; intros [h tr c r].
  - cbn. by rewrite Nat.add_0_r.
  - unfold attach_sent_timestamp in *. cbn [for_each].
    unfold bind at 1. unfold update, bind, now, modify_world; cbn.
    rewrite IH; cbn. do 4 f_equal. lia.
Qed.

Lemma stamped_lookup_notin evts : forall n (h : gmap loc PayloadDict) l,
  l ∉ evts -> stamped n evts h !! l = h !! l.
Proof.
  induction evts as [|l0 evts IH]; intros n h l Hl; [done|].
  apply not_elem_of_cons in Hl as [Hne Hl]. cbn.
  rewrite IH by done. by rewrite lookup_alter_ne.
Qed.

Lemma stamped_lookup_in evts : forall n (h : gmap loc PayloadDict) l d,
  l ∈ evts -> h !! l = Some d ->
  exists k, (n <= k < n + length evts)%nat
    /\ stamped n evts h !! l = Some (<["stm" := sent_timestamp (time_time k)]> d).
Proof.
  induction evts as [|l0 evts IH]; intros n h l d Hl Hd.
  - by apply elem_of_nil in Hl.
  - cbn [stamped length].
    destruct (decide (l = l0)) as [->|Hne].
    + destruct (decide (l0 ∈ evts)) as [Hin|Hout].
      * destruct (IH (S n) (alter (<["stm" := sent_timestamp (time_time n)]>) l0 h) l0
                  (<["stm" := sent_timestamp (time_time n)]> d) Hin) as (k & Hk & Hs).
        { by rewrite lookup_alter_eq, Hd. }
        exists k. split; [lia|]. by rewrite Hs, insert_insert_eq.
      * exists n. split; [lia|].
        rewrite stamped_lookup_notin by done. by rewrite lookup_alter_eq, Hd.
    + apply elem_of_cons in Hl as [?|Hl]; [done|].
      destruct (IH (S n) (alter (<["stm" := sent_timestamp (time_time n)]>) l0 h) l d Hl)
        as (k & Hk & Hs).
      { by rewrite lookup_alter_ne. }
      exists k. split; [lia|done].
Qed.

Lemma succeeded_absorbed reply st :
  absorbed reply = true -> succeeded reply st = (Ok (good reply), st).
Proof. destruct reply as [c|x]; cbn; [done|]. by intros ->. Qed.

Lemma get_each_run evts : forall s f e w,
  raises_only_ClientError ->
  get_each evts s f (e, w)
  = let rs := get_replies (endpoint e) (request_timeout e) (heap w) (requests w) evts in
    (Ok (s ++ (event_of <$> List.filter is_good rs),
         f ++ (event_of <$> List.filter is_bad rs)),
     (e, mkWorld (heap w) (trace w ++ (sent_of <$> rs)) (clock_reads w)
                 (requests w + length evts)%nat)).
Proof.
  induction evts as [|l evts IH]; intros s f e [h tr c r] Hnet.
  - cbn. by rewrite !app_nil_r, Nat.add_0_r.
  - cbn [get_each get_replies].
    unfold bind at 1. unfold http_get, bind, self, the_world, request. cbn.
    rewrite succeeded_absorbed by apply Hnet.
    unfold is_good at 1, is_bad at 1. cbn [snd].
    destruct (good _) eqn:Hg; cbn [negb]; rewrite IH by done; cbn.
    all: rewrite <- !app_assoc; cbn; do 4 f_equal; lia.
Qed.

Lemma send_events_empty e w : send_events [] (e, w) = (Ok tt, (e, w)).
Proof. reflexivity. Qed.

Lemma callbacks_run e w success failure :
  (when (on_success e && (0 <? length success)%nat)
     (modify_world (emit (OnSuccess success))) ;;
   when (on_failure e && (0 <? length failure)%nat)
     (modify_world (emit (OnFailure (Z.of_nat (length success)) (UnsentEvents failure)))))
    (e, w)
  = (Ok tt, (e, mkWorld (heap w) (trace w ++ callbacks e success failure)
                        (clock_reads w) (requests w))).
Proof.
  destruct w as [h tr c r]. unfold callbacks, bind, when, modify_world, emit.
  destruct (on_success e && _), (on_failure e && _); cbn;
    by rewrite <- ?app_assoc, ?app_nil_r.
Qed.

Lemma send_events_get evts e w :
  raises_only_ClientError -> method e = "get" -> evts <> [] ->
  send_events evts (e, w)
  = let h' := stamped (clock_reads w) evts (heap w) in
    let rs := get_replies (endpoint e) (request_timeout e) h' (requests w) evts in
    (Ok tt,
     (e, mkWorld h'
           (trace w ++ (sent_of <$> rs)
                    ++ callbacks e (event_of <$> List.filter is_good rs)
                                   (event_of <$> List.filter is_bad rs))
           (clock_reads w + length evts)%nat (requests w + length evts)%nat)).
Proof.
  intros Hnet Hm Hne. unfold send_events.
  destruct evts as [|l evts]; [done|]. change (0 <? length (l :: evts))%nat with true. cbv iota.
  unfold bind at 1. rewrite attach_sent_timestamp_run.
  unfold bind at 1. unfold self at 1. cbn [fst snd].
  unfold bind at 1.
  destruct (decide (method e = "post")) as [Hp|_]; [by rewrite Hm in Hp|].
  destruct (decide (method e = "get")) as [_|?]; [|done].
  rewrite get_each_run by done. cbv zeta. cbn [fst snd heap trace clock_reads requests app].
  rewrite callbacks_run. cbn [heap trace clock_reads requests]. by rewrite <- app_assoc.
Qed.

Lemma succeeded_verdict reply st : succeeded reply st = (verdict reply, st).
Proof. destruct reply as [c|x]; cbn; [done|]. by destruct (is_ClientError x). Qed.

Lemma send_events_post evts e w :
  method e = "post" -> evts <> [] ->
  send_events evts (e, w)
  = let h' := stamped (clock_reads w) evts (heap w) in
    let r := POST (endpoint e) (to_string PAYLOAD_DATA_SCHEMA (deref h' <$> evts))
                  CONTENT_TYPE (request_timeout e) in
    let reply := transport (requests w) r in
    let after (tr : list Event) :=
      mkWorld h' (trace w ++ Sent r reply :: tr)
              (clock_reads w + length evts)%nat (S (requests w)) in
    match verdict reply with
    | Ok true => (Ok tt, (e, after (callbacks e evts [])))
    | Ok false => (Ok tt, (e, after (callbacks e [] evts)))
    | Raise x => (Raise x, (e, after []))
    end.
Proof.
  intros Hm Hne. unfold send_events.
  destruct evts as [|l evts]; [done|].
  change (0 <? length (l :: evts))%nat with true. cbv iota.
  unfold bind at 1. rewrite attach_sent_timestamp_run.
  unfold bind at 1. unfold self at 1. cbn [fst snd].
  unfold bind at 1.
  destruct (decide (method e = "post")) as [_|?]; [|done].
  unfold bind at 1. unfold the_world at 1. cbn [fst snd heap].
  unfold bind at 1. unfold http_post at 1. unfold bind at 1. unfold self at 1.
  cbn [fst snd]. unfold bind at 1. unfold request at 1.
  cbn [fst snd heap trace clock_reads requests].
  rewrite succeeded_verdict. cbv zeta.
  destruct (verdict _) as [[|]|x]; [| |done].
  all: unfold ret at 1; cbn [fst snd app]; rewrite callbacks_run;
    cbn [heap trace clock_reads requests]; by rewrite <- app_assoc.
Qed.

Lemma callbacks_nil e : callbacks e [] [] = [].
Proof. unfold callbacks. cbn. by rewrite !andb_false_r. Qed.

Lemma send_events_other evts e w :
  method e <> "post" -> method e <> "get" -> evts <> [] ->
  send_events evts (e, w)
  = (Ok tt, (e, mkWorld (stamped (clock_reads w) evts (heap w)) (trace w)
                        (clock_reads w + length evts)%nat (requests w))).
Proof.
  intros Hp Hg Hne. unfold send_events.
  destruct evts as [|l evts]; [done|].
  change (0 <? length (l :: evts))%nat with true. cbv iota.
  unfold bind at 1. rewrite attach_sent_timestamp_run.
  unfold bind at 1. unfold self at 1. cbn [fst snd].
  unfold bind at 1.
  destruct (decide (method e = "post")) as [?|_]; [done|].
  destruct (decide (method e = "get")) as [?|_]; [done|].
  unfold ret at 1. cbn [fst snd]. rewrite callbacks_run, callbacks_nil.
  cbn. by rewrite app_nil_r.
Qed.

Lemma send_events_ok evts e w :
  raises_only_ClientError ->
  exists w', send_events evts (e, w) = (Ok tt, (e, w')).
Proof.
  intros Hnet. destruct (decide (evts = [])) as [->|Hne]; [by eexists|].
  destruct (decide (method e = "post")) as [Hp|Hp].
  - rewrite send_events_post by done. cbv zeta.
    pose proof (Hnet (requests w)
      (POST (endpoint e)
         (to_string PAYLOAD_DATA_SCHEMA
            (deref (stamped (clock_reads w) evts (heap w)) <$> evts))
         CONTENT_TYPE (request_timeout e))) as Ha.
    destruct (transport _ _) as [c|x]; cbn in *.
    + destruct (is_good_status_code c); by eexists.
    + rewrite Ha. by eexists.
  - destruct (decide (method e = "get")) as [Hg|Hg].
    + rewrite send_events_get by done. by eexists.
    + rewrite send_events_other by done. by eexists.
Qed.

Lemma _flush_unsafe_run e w :
  _flush_unsafe (e, w)
  = match send_events (buffer e) (e, w) with
    | (Ok _, (e', w')) => (Ok tt, (reset e', w'))
    | (Raise x, st) => (Raise x, st)
    end.
Proof.
  unfold _flush_unsafe. unfold bind at 1. unfold self at 1. cbn [fst snd].
  unfold bind at 1. destruct (send_events _ _) as [[[]|x] [e' w']]; [|done].
  unfold bind, modify_self, self, when, reset. cbn.
  destruct (bytes_queued e'); by cbn.
Qed.

Lemma input_run payload e w :
  input payload (e, w)
  = let e1 := appended e (deref (heap w) payload) (entry e w payload) in
    let w1 := with_entry e w payload in
    if reached_limit e1 then _flush_unsafe (e1, w1) else (Ok tt, (e1, w1)).
Proof.
  unfold input. unfold bind at 1. unfold self at 1. cbn [fst snd].
  unfold bind at 1. unfold the_world at 1. cbn [fst snd].
  unfold appended, entry, with_entry.
  destruct e as [u m bs b bl bq rt cs sc fc tm]. destruct w as [h tr c r].
  cbn [method heap bytes_queued buffer].
  destruct bq as [q|], (decide (m = "post")); cbn; unfold when;
    by destruct (reached_limit _).
Qed.

(** Whatever the collector does, the GET loop leaves the emitter and the store
    alone and issues a request for the first event at least. *)
Lemma get_each_frame evts : forall s f e w,
  let st' := snd (get_each evts s f (e, w)) in
  fst st' = e /\ heap (snd st') = heap w
  /\ (requests w <= requests (snd st'))%nat
  /\ (evts <> [] -> (requests w < requests (snd st'))%nat).
Proof.
  induction evts as [|l evts IH]; intros s f e [h tr c r]; cbv zeta.
  - cbn. repeat split; [lia|done].
  - cbn [get_each]. unfold bind at 1.
    unfold http_get, bind, self, the_world, request. cbn.
    rewrite succeeded_verdict.
    destruct (verdict _) as [[|]|x]; cbn.
    + specialize (IH (s ++ [l]) f e
        (mkWorld h (tr ++ [Sent (GET (endpoint e) (deref h l) (request_timeout e))
             (transport r (GET (endpoint e) (deref h l) (request_timeout e)))]) c (S r))).
      cbv zeta in IH. cbn in IH. destruct IH as (? & ? & ? & _).
      repeat split; try done; lia.
    + specialize (IH s (f ++ [l]) e
        (mkWorld h (tr ++ [Sent (GET (endpoint e) (deref h l) (request_timeout e))
             (transport r (GET (endpoint e) (deref h l) (request_timeout e)))]) c (S r))).
      cbv zeta in IH. cbn in IH. destruct IH as (? & ? & ? & _).
      repeat split; try done; lia.
    + repeat split; try done; lia.
Qed.

Lemma send_events_get_any evts e w :
  method e = "get" -> evts <> [] ->
  send_events evts (e, w)
  = match get_each evts [] []
            (e, mkWorld (stamped (clock_reads w) evts (heap w)) (trace w)
                        (clock_reads w + length evts)%nat (requests w)) with
    | (Ok sf, (e', w')) =>
        (Ok tt, (e', mkWorld (heap w') (trace w' ++ callbacks e (fst sf) (snd sf))
                             (clock_reads w') (requests w')))
    | (Raise x, st) => (Raise x, st)
    end.
Proof.
  intros Hg Hne. unfold send_events.
  destruct evts as [|l evts]; [done|].
  change (0 <? length (l :: evts))%nat with true. cbv iota.
  unfold bind at 1. rewrite attach_sent_timestamp_run.
  unfold bind at 1. unfold self at 1. cbn [fst snd].
  unfold bind at 1.
  destruct (decide (method e = "post")) as [Hp|_]; [by rewrite Hg in Hp|].
  destruct (decide (method e = "get")) as [_|?]; [|done].
  match goal with |- context [get_each ?a ?b ?c ?st] =>
    pose proof (get_each_frame a b c (fst st) (snd st)) as Hf;
    cbv zeta in Hf; cbn [fst snd] in Hf;
    destruct (get_each a b c st) as [[sf|x] [e' w']] end; [|done].
  cbn [fst snd] in Hf. destruct Hf as (-> & _). by rewrite callbacks_run.
Qed.

Lemma send_events_frame evts e w :
  let st' := snd (send_events evts (e, w)) in
  fst st' = e
  /\ heap (snd st') = stamped (clock_reads w) evts (heap w)
  /\ (requests w <= requests (snd st'))%nat
  /\ (method e ∈ METHODS -> evts <> [] -> (requests w < requests (snd st'))%nat).
Proof.
  cbv zeta. destruct (decide (evts = [])) as [->|Hne].
  { cbn. split_and!; [done|done|lia|done]. }
  destruct (decide (method e = "post")) as [Hp|Hp].
  { rewrite send_events_post by done. cbv zeta.
    destruct (verdict _) as [[|]|x]; cbn; split_and!; intros; try done; lia. }
  destruct (decide (method e = "get")) as [Hg|Hg].
  - rewrite send_events_get_any by done.
    match goal with |- context [get_each ?a ?b ?c ?st] =>
      pose proof (get_each_frame a b c (fst st) (snd st)) as Hf;
      cbv zeta in Hf; cbn [fst snd] in Hf;
      destruct (get_each a b c st) as [[sf|x] [e' w']] end;
      cbn [fst snd heap requests] in *; destruct Hf as (-> & Hh & Hr & Hlt);
      (split_and!; [done|done|done|]); intros _ _; by apply Hlt.
  - rewrite send_events_other by done. cbn. split_and!; [done|done|done|].
    intros Hin. unfold METHODS in Hin.
    rewrite !elem_of_cons, elem_of_nil in Hin. by destruct Hin as [?|[?|?]].
Qed.

Lemma sent_requests_app tr1 tr2 :
  sent_requests (tr1 ++ tr2) = sent_requests tr1 ++ sent_requests tr2.
Proof. apply omap_app. Qed.

Lemma callback_calls_app tr1 tr2 :
  callback_calls (tr1 ++ tr2) = callback_calls tr1 ++ callback_calls tr2.
Proof. apply List.filter_app. Qed.

Lemma sent_requests_cons r reply tl :
  sent_requests (Sent r reply :: tl) = r :: sent_requests tl.
Proof. reflexivity. Qed.

Lemma sent_requests_callbacks e s f : sent_requests (callbacks e s f) = [].
Proof. unfold callbacks. by destruct (on_success e && _), (on_failure e && _). Qed.

Lemma callback_calls_callbacks e s f : callback_calls (callbacks e s f) = callbacks e s f.
Proof. unfold callbacks. by destruct (on_success e && _), (on_failure e && _). Qed.

(** Whatever the collector does, the GET loop only adds requests to the
    trace: those of a leading stretch of the batch, in batch order. *)
Lemma get_each_trace evts : forall s f e w,
  exists tl,
    trace (snd (snd (get_each evts s f (e, w)))) = trace w ++ tl
    /\ callback_calls tl = []
    /\ sent_requests tl `prefix_of`
         ((fun l => GET (endpoint e) (deref (heap w) l) (request_timeout e)) <$> evts).
Proof.
  induction evts as [|l evts IH]; intros s f e [h tr c r].
  - exists []. cbn. by rewrite app_nil_r.
  - cbn [get_each]. unfold bind at 1.
    unfold http_get, bind, self, the_world, request. cbn.
    rewrite succeeded_verdict.
    set (rq := GET (endpoint e) (deref h l) (request_timeout e)).
    destruct (verdict _) as [[|]|x]; cbn.
    + destruct (IH (s ++ [l]) f e (mkWorld h (tr ++ [Sent rq (transport r rq)]) c (S r)))
        as (tl & Ht & Hc & Hp). cbn in Ht, Hp.
      exists (Sent rq (transport r rq) :: tl). rewrite Ht, <- app_assoc.
      split_and!; [done|done|]. cbn. by apply prefix_cons.
    + destruct (IH s (f ++ [l]) e (mkWorld h (tr ++ [Sent rq (transport r rq)]) c (S r)))
        as (tl & Ht & Hc & Hp). cbn in Ht, Hp.
      exists (Sent rq (transport r rq) :: tl). rewrite Ht, <- app_assoc.
      split_and!; [done|done|]. cbn. by apply prefix_cons.
    + exists [Sent rq (transport r rq)]. split_and!; [done|done|].
      cbn. apply prefix_cons, prefix_nil.
Qed.

Lemma requests_of_post e h evts :
  method e = "post" -> evts <> [] ->
  requests_of e h evts
  = [POST (endpoint e) (to_string PAYLOAD_DATA_SCHEMA (deref h <$> evts))
          CONTENT_TYPE (request_timeout e)].
Proof.
  intros Hp Hne. unfold requests_of. destruct evts; [done|].
  by destruct (decide (method e = "post")).
Qed.

Lemma requests_of_get e h evts :
  method e = "get" ->
  requests_of e h evts
  = (fun l => GET (endpoint e) (deref h l) (request_timeout e)) <$> evts.
Proof.
  intros Hg. unfold requests_of. destruct evts; [done|].
  destruct (decide (method e = "post")) as [Hp|_]; [by rewrite Hg in Hp|].
  by destruct (decide (method e = "get")).
Qed.

Lemma requests_of_other e h evts :
  method e <> "post" -> method e <> "get" -> requests_of e h evts = [].
Proof.
  intros Hp Hg. unfold requests_of. destruct evts; [done|].
  destruct (decide (method e = "post")); [done|].
  by destruct (decide (method e = "get")).
Qed.

Lemma get_replies_requests uri t h n evts :
  (fun x => snd (fst x)) <$> get_replies uri t h n evts
  = (fun l => GET uri (deref h l) t) <$> evts.
Proof.
  revert n. induction evts as [|l evts IH]; intros n; [done|].
  cbn. by rewrite IH.
Qed.

Lemma sent_requests_sent_of (rs : list (loc * Request other * Reply)) :
  sent_requests (sent_of <$> rs) = (fun x => snd (fst x)) <$> rs.
Proof. induction rs as [|x rs IH]; [done|]. cbn. by rewrite <- IH. Qed.

(** A flush issues no request twice and none out of order: what it sends is a
    leading stretch of [requests_of], read from the stamped store; and all of
    it when no foreign exception cuts the flush short. *)
Lemma send_events_trace evts e w :
  exists tl,
    trace (snd (snd (send_events evts (e, w)))) = trace w ++ tl
    /\ sent_requests tl `prefix_of`
         requests_of e (stamped (clock_reads w) evts (heap w)) evts
    /\ (raises_only_ClientError ->
        sent_requests tl = requests_of e (stamped (clock_reads w) evts (heap w)) evts).
Proof.
  destruct (decide (evts = [])) as [->|Hne].
  { exists []. cbn. by rewrite app_nil_r. }
  destruct (decide (method e = "post")) as [Hp|Hp].
  { rewrite send_events_post, requests_of_post by done. cbv zeta.
    destruct (verdict _) as [[|]|x] eqn:Hv; cbn [snd trace];
      eexists; (split; [reflexivity|]);
      rewrite sent_requests_cons, ?sent_requests_callbacks.
    1,2: by split.
    split; [done|]. intros Hnet.
    match type of Hv with verdict (transport ?n ?r) = _ =>
      specialize (Hnet n r); destruct (transport n r) as [c|y] end; [done|].
    cbn in *. by rewrite Hnet in Hv. }
  destruct (decide (method e = "get")) as [Hg|Hg].
  - rewrite requests_of_get by done.
    assert (exists tl,
      trace (snd (snd (send_events evts (e, w)))) = trace w ++ tl
      /\ sent_requests tl `prefix_of`
           ((fun l => GET (endpoint e)
                        (deref (stamped (clock_reads w) evts (heap w)) l)
                        (request_timeout e)) <$> evts)) as (tl & Ht & Hpre).
    { rewrite send_events_get_any by done.
      match goal with |- context [get_each ?a ?b ?c (?e0, ?w0)] =>
        destruct (get_each_trace a b c e0 w0) as (tl & Ht & _ & Hpre);
        destruct (get_each a b c (e0, w0)) as [[sf|x] [e' w']] end;
        cbn [fst snd trace heap] in *.
      - exists (tl ++ callbacks e (fst sf) (snd sf)).
        rewrite Ht, <- app_assoc, sent_requests_app, sent_requests_callbacks, app_nil_r.
        by split.
      - exists tl. by split. }
    exists tl. split_and!; [done|done|]. intros Hnet.
    rewrite send_events_get in Ht by done. cbv zeta in Ht. cbn [snd trace] in Ht.
    apply app_inv_head in Ht. subst tl.
    by rewrite sent_requests_app, sent_requests_callbacks, app_nil_r,
      sent_requests_sent_of, get_replies_requests.
  - rewrite send_events_other, requests_of_other by done.
    exists []. cbn. by rewrite app_nil_r.
Qed.

(** [_flush_unsafe] either runs to its end, and then the buffer and the byte
    count are reset together, or is cut short by an exception before either
    is touched; the store is stamped in both cases. *)
Lemma _flush_unsafe_cases e w :
  heap (snd (snd (_flush_unsafe (e, w)))) = stamped (clock_reads w) (buffer e) (heap w)
  /\ ((fst (_flush_unsafe (e, w)) = Ok tt /\ fst (snd (_flush_unsafe (e, w))) = reset e)
      \/ (exists x, fst (_flush_unsafe (e, w)) = Raise x
                    /\ fst (snd (_flush_unsafe (e, w))) = e)).
Proof.
  rewrite _flush_unsafe_run.
  pose proof (send_events_frame (buffer e) e w) as Hf. cbv zeta in Hf.
  destruct (send_events (buffer e) (e, w)) as [[[]|x] [e' w']];
    cbn [fst snd] in *; destruct Hf as (-> & Hh & _); (split; [done|]).
  - by left.
  - right. by exists x.
Qed.

Lemma _flush_unsafe_ok e w :
  raises_only_ClientError ->
  exists w', _flush_unsafe (e, w) = (Ok tt, (reset e, w')).
Proof.
  intros Hnet. rewrite _flush_unsafe_run.
  destruct (send_events_ok (buffer e) e w Hnet) as (w' & ->). by exists w'.
Qed.

Lemma reset_buffer e : buffer (reset e) = [].
Proof. unfold reset. by destruct (bytes_queued e). Qed.



Lemma reset_buffer_size e : buffer_size (reset e) = buffer_size e.
Proof. unfold reset. by destruct (bytes_queued e). Qed.

Lemma reset_method e : method (reset e) = method e.
Proof. unfold reset. by destruct (bytes_queued e). Qed.

Lemma appended_buffer e d l : buffer (appended e d l) = buffer e ++ [l].
Proof. unfold appended. by destruct (bytes_queued e). Qed.

Lemma appended_buffer_size e d l : buffer_size (appended e d l) = buffer_size e.
Proof. unfold appended. by destruct (bytes_queued e). Qed.

Lemma appended_method e d l : method (appended e d l) = method e.
Proof. unfold appended. by destruct (bytes_queued e). Qed.

Lemma appended_byte_limit e d l : byte_limit (appended e d l) = byte_limit e.
Proof. unfold appended. by destruct (bytes_queued e). Qed.

(** [reached_limit] decides the flush predicate of the specification. *)
Lemma reached_limit_spec e : reached_limit e = true <-> flush_predicate e.
Proof.
  unfold reached_limit, flush_predicate, byte_count.
  destruct (byte_limit e) as [limit|].
  - rewrite orb_true_iff, !Z.geb_le. split.
    + intros [?|?]; [left; exists limit; split; [done|lia] | right; lia].
    + intros [(l' & Hl & ?)|?]; [left; injection Hl as <-; lia | right; lia].
  - rewrite Z.geb_le. split; [intros; right; lia|].
    intros [(l' & Hl & ?)|?]; [done | lia].
Qed.

(** ** The claims *)

(** C6. [as_collector_uri] (the specification's [build_uri]) is a function of
    its four arguments alone: it raises when the host is the empty string and
    otherwise returns [protocol://host[:port]path], the path being [/i] for
    "get" and [/com.snowplowanalytics.snowplow/tp2] for "post", and the port
    segment being empty exactly when no port is given; the two endpoints of
    the specification come out as stated. *)
Theorem as_collector_uri_shape :
  (forall host protocol port method,
     as_collector_uri host protocol port method
     = if decide (host = "") then Raise (ValueError "No endpoint provided.")
       else Ok (uri_shape host protocol port method))
  /\ route "get" = "/i"
  /\ route "post" = "/com.snowplowanalytics.snowplow/tp2"
  /\ (forall port, port_segment port = "" <-> port = None)
  /\ as_collector_uri "example.com" "https" (Some 443) "post"
     = Ok "https://example.com:443/com.snowplowanalytics.snowplow/tp2"
  /\ as_collector_uri "example.com" "http" None "get" = Ok "http://example.com/i".
Proof.
  split_and!; try reflexivity.
  - intros host protocol port method. unfold as_collector_uri, uri_shape, route.
    destruct host as [|a host]; [done|].
    destruct (decide (_ < 1)%nat) as [Hlt|_]; [cbn in Hlt; lia|].
    destruct (decide (String a host = "")) as [?|_]; [done|].
    destruct port as [p|]; cbn; [done|]. done.
  - intros [p|]; split; try done.
Qed.

(** C7. Flushing an empty buffer does nothing to the world: no request is
    issued, no callback is called, no dictionary is touched, whatever the
    configuration of the emitter and whichever way the flush is asked for;
    the emitter itself is left with its empty buffer. *)
Theorem flush_empty_buffer_noop e w :
  buffer e = [] ->
  flush (e, w) = (Ok tt, (reset e, w))
  /\ sync_flush (e, w) = (Ok tt, (reset e, w))
  /\ (forall timeout, snd (snd (set_flush_timer timeout true (e, w))) = w)
  /\ sent_requests (trace (snd (snd (flush (e, w))))) = sent_requests (trace w)
  /\ callback_calls (trace (snd (snd (flush (e, w))))) = callback_calls (trace w)
  /\ buffer (reset e) = [].
Proof.
  intros Hb.
  assert (flush (e, w) = (Ok tt, (reset e, w))) as Hf.
  { unfold flush. rewrite _flush_unsafe_run, Hb. reflexivity. }
  split_and!; try done.
  - intros timeout. unfold set_flush_timer, when, bind. by rewrite Hf.
  - by rewrite Hf.
  - by rewrite Hf.
  - apply reset_buffer.
Qed.

Lemma _flush_unsafe_requests e w :
  method e ∈ METHODS -> buffer e <> [] ->
  (requests w < requests (snd (snd (_flush_unsafe (e, w)))))%nat.
Proof.
  intros Hm Hb. rewrite _flush_unsafe_run.
  pose proof (send_events_frame (buffer e) e w) as Hf. cbv zeta in Hf.
  destruct (send_events (buffer e) (e, w)) as [[[]|x] [e' w']];
    cbn [fst snd] in *; destruct Hf as (_ & _ & _ & Hlt); by apply Hlt.
Qed.

Lemma with_entry_trace e w payload : trace (with_entry e w payload) = trace w.
Proof. unfold with_entry. by destruct (decide (method e = "post")). Qed.

Lemma with_entry_requests e w payload : requests (with_entry e w payload) = requests w.
Proof. unfold with_entry. by destruct (decide (method e = "post")). Qed.

Lemma with_entry_clock_reads e w payload :
  clock_reads (with_entry e w payload) = clock_reads w.
Proof. unfold with_entry. by destruct (decide (method e = "post")). Qed.

(** C4. After appending the payload, [input] flushes exactly when the byte
    count has reached the byte limit (a byte limit being configured) or the
    buffer has reached [buffer_size] events: then it runs the flush on the
    appended buffer, which shows as at least one request to the collector;
    otherwise it returns with the payload buffered and nothing sent.  In
    particular a byte count at the limit flushes although fewer than
    [buffer_size] events are buffered. *)
Theorem input_flushes_exactly_at_the_limits payload e w :
  method e ∈ METHODS ->
  let e1 := appended e (deref (heap w) payload) (entry e w payload) in
  let w1 := with_entry e w payload in
  let out := input payload (e, w) in
  (reached_limit e1 = true <-> flush_predicate e1)
  /\ (flush_predicate e1 ->
      out = _flush_unsafe (e1, w1)
      /\ (requests w < requests (snd (snd out)))%nat)
  /\ (~ flush_predicate e1 ->
      out = (Ok tt, (e1, w1))
      /\ buffer (fst (snd out)) = buffer e ++ [entry e w payload]
      /\ requests (snd (snd out)) = requests w
      /\ trace (snd (snd out)) = trace w)
  /\ (forall limit,
        byte_limit e = Some limit -> byte_count e1 >= limit ->
        Z.of_nat (length (buffer e1)) < buffer_size e ->
        out = _flush_unsafe (e1, w1)
        /\ (requests w < requests (snd (snd out)))%nat).
Proof.
  intros Hm e1 w1 out.
  assert (flush_predicate e1 ->
          out = _flush_unsafe (e1, w1)
          /\ (requests w < requests (snd (snd out)))%nat) as Hflush.
  { intros Hp. apply reached_limit_spec in Hp.
    assert (out = _flush_unsafe (e1, w1)) as ->.
    { subst out. rewrite input_run. cbv zeta. fold e1 w1. by rewrite Hp. }
    split; [done|].
    rewrite <- (with_entry_requests e w payload). fold w1.
    apply _flush_unsafe_requests.
    - subst e1. by rewrite appended_method.
    - subst e1. rewrite appended_buffer. by destruct (buffer e). }
  split_and!.
  - apply reached_limit_spec.
  - done.
  - intros Hp. rewrite <- reached_limit_spec in Hp.
    apply not_true_is_false in Hp.
    assert (out = (Ok tt, (e1, w1))) as ->.
    { subst out. rewrite input_run. cbv zeta. fold e1 w1. by rewrite Hp. }
    cbn [fst snd]. subst e1 w1.
    by rewrite appended_buffer, with_entry_requests, with_entry_trace.
  - intros limit Hl Hb _. apply Hflush. left. exists limit.
    subst e1. by rewrite appended_byte_limit.
Qed.

Lemma reached_limit_false e :
  reached_limit e = false -> Z.of_nat (length (buffer e)) < buffer_size e.
Proof.
  unfold reached_limit. destruct (byte_limit e) as [limit|].
  - rewrite orb_false_iff. intros [_ H]. rewrite Z.geb_leb in H.
    apply Z.leb_gt in H. lia.
  - intros H. rewrite Z.geb_leb in H. apply Z.leb_gt in H. lia.
Qed.

(** C10. With [buffer_size] at least 1, an [input] or a [flush] that
    completes leaves fewer than [buffer_size] events in the buffer: an input
    that brings the buffer up to the threshold flushes it in the same step. *)
Theorem buffer_stays_below_buffer_size e w e' w' :
  1 <= buffer_size e ->
  (forall payload,
     input payload (e, w) = (Ok tt, (e', w')) ->
     buffer_size e' = buffer_size e
     /\ Z.of_nat (length (buffer e')) < buffer_size e')
  /\ (flush (e, w) = (Ok tt, (e', w')) ->
      buffer_size e' = buffer_size e
      /\ Z.of_nat (length (buffer e')) < buffer_size e').
Proof.
  intros Hbs.
  assert (forall e0 w0, buffer_size e0 = buffer_size e ->
            _flush_unsafe (e0, w0) = (Ok tt, (e', w')) ->
            buffer_size e' = buffer_size e
            /\ Z.of_nat (length (buffer e')) < buffer_size e') as Hflush.
  { intros e0 w0 Hsz Hrun.
    destruct (_flush_unsafe_cases e0 w0) as (_ & [(_ & He)|(x & Hx & _)]).
    - rewrite Hrun in He. cbn in He. subst e'.
      rewrite reset_buffer_size, reset_buffer, Hsz. cbn. split; [done|lia].
    - by rewrite Hrun in Hx. }
  split.
  - intros payload. rewrite input_run. cbv zeta.
    destruct (reached_limit _) eqn:Hr.
    + apply Hflush, appended_buffer_size.
    + intros [= <- <-]. rewrite appended_buffer_size. split; [done|].
      apply reached_limit_false in Hr. by rewrite appended_buffer_size in Hr.
  - apply Hflush. done.
Qed.


Lemma get_replies_events uri t h n evts :
  event_of <$> get_replies uri t h n evts = evts.
Proof.
  revert n. induction evts as [|l evts IH]; intros n; [done|].
  cbn. by rewrite IH.
Qed.

Lemma get_replies_lookup uri t h evts : forall n i l,
  evts !! i = Some l ->
  get_replies uri t h n evts !! i
  = Some (l, GET uri (deref h l) t, transport (n + i) (GET uri (deref h l) t)).
Proof.
  induction evts as [|l0 evts IH]; intros n i l Hl; [done|].
  destruct i as [|i]; cbn [get_replies].
  - cbn in Hl. injection Hl as ->. cbn. by rewrite Nat.add_0_r.
  - change ((?x :: ?xs) !! S i) with (xs !! i). cbn in Hl.
    rewrite (IH (S n) i l Hl). do 3 f_equal. lia.
Qed.

Lemma good_bad_partition (rs : list (loc * Request other * Reply)) :
  (event_of <$> List.filter is_good rs) ++ (event_of <$> List.filter is_bad rs)
  ≡ₚ event_of <$> rs.
Proof.
  induction rs as [|x rs IH]; [done|].
  cbn. unfold is_bad at 1, is_good at 1. destruct (good (snd x)); cbn.
  - by rewrite IH.
  - rewrite <- Permutation_middle. by rewrite IH.
Qed.

(** X18. Against a collector whose every request ends in a status or a
    [ClientError], a flush in GET mode issues one GET request per buffered
    event, in batch order and to the end of the batch whatever the earlier
    requests came to; each reply is judged by the status rule on its own.
    When the flush completes, the buffer is reset and the callbacks have been
    called as follows: the success callback, when registered and some event
    went through, with exactly the events whose request succeeded; then the
    failure callback, when registered and some event did not, with their
    number and the list of the others.  With no callback registered the flush
    does complete. *)
Theorem get_flush_one_request_per_event e w :
  raises_only_ClientError -> method e = "get" -> buffer e <> [] ->
  let evts := buffer e in
  let h' := stamped (clock_reads w) evts (heap w) in
  let rs := get_replies (endpoint e) (request_timeout e) h' (requests w) evts in
  let success_events := event_of <$> List.filter is_good rs in
  let failure_events := event_of <$> List.filter is_bad rs in
  let out := flush (e, w) in
  (exists tl,
     snd (snd out)
     = mkWorld h' (trace w ++ (sent_of <$> rs) ++ tl)
               (clock_reads w + length evts)%nat (requests w + length evts)%nat
     /\ sent_requests tl = []
     /\ (fst out = Ok tt ->
         fst (snd out) = reset e
         /\ tl = (if on_success e && (0 <? length success_events)%nat
                  then [OnSuccess success_events] else [])
                 ++ (if on_failure e && (0 <? length failure_events)%nat
                     then [OnFailure (Z.of_nat (length success_events))
                                     (UnsentEvents failure_events)]
                     else [])))
  /\ (on_success e = false -> on_failure e = false -> fst out = Ok tt)
  /\ event_of <$> rs = evts
  /\ (forall i l,
        evts !! i = Some l ->
        rs !! i
        = Some (l, GET (endpoint e) (deref h' l) (request_timeout e),
                transport (requests w + i)
                  (GET (endpoint e) (deref h' l) (request_timeout e))))
  /\ success_events ++ failure_events ≡ₚ evts.
Proof.
  intros Hnet Hg Hb evts h' rs success_events failure_events out.
  assert (out
          = (Ok tt,
             (reset e,
              mkWorld h'
                (trace w ++ (sent_of <$> rs)
                         ++ callbacks e success_events failure_events)
                (clock_reads w + length evts)%nat
                (requests w + length evts)%nat))) as Hout.
  { subst out. unfold flush. rewrite _flush_unsafe_run, send_events_get by done.
    reflexivity. }
  split_and!.
  - exists (callbacks e success_events failure_events). rewrite Hout.
    cbn [fst snd]. split_and!; [done|apply sent_requests_callbacks|done].
  - intros _ _. by rewrite Hout.
  - apply get_replies_events.
  - intros i l Hl. by apply get_replies_lookup.
  - subst success_events failure_events. rewrite good_bad_partition.
    subst rs. by rewrite get_replies_events.
Qed.

Lemma _flush_unsafe_world e w :
  snd (snd (_flush_unsafe (e, w))) = snd (snd (send_events (buffer e) (e, w))).
Proof.
  rewrite _flush_unsafe_run.
  by destruct (send_events (buffer e) (e, w)) as [[[]|x] [e' w']].
Qed.

(** C3 (amended). A flush attaches [stm] to every payload of the batch by
    mutating the dictionary behind each reference, before anything is
    dispatched: the requests are built from the stamped store.  The field
    holds a string, the decimal form of the clock reading truncated to whole
    seconds and multiplied by 1000; all other fields and all dictionaries
    outside the batch stay as they were. *)
Theorem flush_attaches_stm_string e w :
  let evts := buffer e in
  let out := flush (e, w) in
  let h' := stamped (clock_reads w) evts (heap w) in
  heap (snd (snd out)) = h'
  /\ (forall l d,
        l ∈ evts -> heap w !! l = Some d ->
        exists k, (clock_reads w <= k < clock_reads w + length evts)%nat
          /\ h' !! l
             = Some (<["stm" := VStr (str_int (int_of_float (time_time k) * 1000))]> d))
  /\ (forall l, l ∉ evts -> h' !! l = heap w !! l)
  /\ (exists tl,
        trace (snd (snd out)) = trace w ++ tl
        /\ sent_requests tl `prefix_of` requests_of e h' evts
        /\ (raises_only_ClientError -> sent_requests tl = requests_of e h' evts)).
Proof.
  cbv zeta. split_and!.
  - apply _flush_unsafe_cases.
  - intros l d Hl Hd. by apply stamped_lookup_in.
  - intros l Hl. by apply stamped_lookup_notin.
  - unfold flush. rewrite _flush_unsafe_world. apply send_events_trace.
Qed.

(** A dictionary the emitter does not hold in its buffer is out of a flush's
    reach, and stays out of the buffer. *)
Lemma _flush_unsafe_keeps l e w :
  l ∉ buffer e ->
  let st := snd (_flush_unsafe (e, w)) in
  method (fst st) = method e /\ (l ∉ buffer (fst st))
  /\ heap (snd st) !! l = heap w !! l.
Proof.
  intros Hl. cbv zeta.
  destruct (_flush_unsafe_cases e w) as (Hh & [(_ & ->)|(x & _ & ->)]).
  - rewrite reset_method, reset_buffer, Hh, stamped_lookup_notin by done.
    split_and!; [done| |done]. apply not_elem_of_nil.
  - rewrite Hh, stamped_lookup_notin by done. done.
Qed.

Lemma input_keeps l d payload e w :
  method e = "post" -> l ∉ buffer e -> heap w !! l = Some d ->
  let st := snd (input payload (e, w)) in
  method (fst st) = "post" /\ (l ∉ buffer (fst st)) /\ heap (snd st) !! l = Some d.
Proof.
  intros Hp Hl Hd. cbv zeta. rewrite input_run. cbv zeta.
  set (e1 := appended _ _ _). set (w1 := with_entry _ _ _).
  assert (fresh (dom (heap w)) <> l) as Hfresh.
  { intros <-. apply (is_fresh (dom (heap w))). apply elem_of_dom. by eexists. }
  assert (method e1 = "post") as Hp1 by (subst e1; by rewrite appended_method).
  assert (l ∉ buffer e1) as Hl1.
  { subst e1. rewrite appended_buffer. unfold entry.
    destruct (decide (method e = "post")); [|done].
    rewrite not_elem_of_app, not_elem_of_cons. split_and!; [done|done|].
    apply not_elem_of_nil. }
  assert (heap w1 !! l = Some d) as Hd1.
  { subst w1. unfold with_entry. destruct (decide (method e = "post")); [|done].
    cbn. by rewrite lookup_insert_ne. }
  destruct (reached_limit e1); [|done].
  destruct (_flush_unsafe_keeps l e1 w1 Hl1) as (Hm & Hb & Hh).
  by rewrite Hm, Hh.
Qed.

Lemma run_keeps l d op e w :
  method e = "post" -> l ∉ buffer e -> heap w !! l = Some d ->
  let st := snd (run op (e, w)) in
  method (fst st) = "post" /\ (l ∉ buffer (fst st)) /\ heap (snd st) !! l = Some d.
Proof.
  intros Hp Hl Hd.
  assert (let st := snd (_flush_unsafe (e, w)) in
          method (fst st) = "post" /\ (l ∉ buffer (fst st))
          /\ heap (snd st) !! l = Some d) as Hflush.
  { destruct (_flush_unsafe_keeps l e w Hl) as (Hm & Hb & Hh).
    cbv zeta. by rewrite Hm, Hh. }
  assert (forall timeout,
          let st := snd (set_flush_timer timeout true (e, w)) in
          method (fst st) = "post" /\ (l ∉ buffer (fst st))
          /\ heap (snd st) !! l = Some d) as Htimer.
  { intros timeout. cbv zeta in *. unfold set_flush_timer, when, bind, flush.
    destruct (_flush_unsafe (e, w)) as [[[]|x] [e' w']]; by cbn in *. }
  destruct op as [payload| | |timeout [|]| |]; cbn [run].
  - by apply input_keeps.
  - apply Hflush.
  - apply Hflush.
  - apply Htimer.
  - by cbn.
  - cbn. by destruct (timer e).
  - cbv zeta. unfold tick, bind, self. cbn [fst snd].
    destruct (timer e) as [t|]; [|by cbn].
    destruct (cancelled t); [by cbn|]. apply Htimer.
Qed.

Lemma run_all_keeps l d ops : forall e w,
  method e = "post" -> l ∉ buffer e -> heap w !! l = Some d ->
  let st := snd (run_all ops (e, w)) in
  method (fst st) = "post" /\ (l ∉ buffer (fst st)) /\ heap (snd st) !! l = Some d.
Proof.
  induction ops as [|op ops IH]; intros e w Hp Hl Hd; [by cbn|].
  cbn [run_all]. unfold bind.
  pose proof (run_keeps l d op e w Hp Hl Hd) as Hstep. cbv zeta in Hstep.
  destruct (run op (e, w)) as [[[]|x] [e' w']]; cbn [fst snd] in *; [|done].
  destruct Hstep as (? & ? & ?). by apply IH.
Qed.

Lemma stringified_lookup (d : PayloadDict) key :
  stringified d !! key = (fun v => VStr (py_str v)) <$> d !! key.
Proof. unfold stringified. apply lookup_fmap. Qed.

Lemma stamped_dom evts : forall n (h : gmap loc PayloadDict),
  dom (stamped n evts h) = dom h.
Proof.
  induction evts as [|l evts IH]; intros n h; [done|].
  cbn. rewrite IH. apply dom_alter_L.
Qed.

(** C9. In POST mode [input] allocates a new dictionary, under a reference of
    its own, that maps each key of the payload to the string form of its
    value, and buffers that reference; the caller's dictionary is never
    buffered and is the same before and after, whether the [input] only
    buffers or flushes, and whatever operations follow.  In GET mode [input]
    allocates nothing and buffers the caller's own reference.  In either mode
    a flush writes [stm] into the dictionaries behind the buffered
    references: the copy in POST mode, the caller's dictionary in GET mode.
    The first two parts state this of the result of [input], the third of
    [flush]; the last two give the closed forms of what [input] buffers and
    stores. *)
Theorem post_buffers_a_copy_get_the_payload_itself payload d e w :
  heap w !! payload = Some d ->
  (method e = "post" -> payload ∉ buffer e ->
      let out := input payload (e, w) in
      let copy : PayloadDict := (fun v => VStr (py_str v)) <$> d in
      exists l,
        heap w !! l = None /\ l <> payload
        /\ dom (heap (snd (snd out))) = {[l]} ∪ dom (heap w)
        /\ heap (snd (snd out)) !! payload = Some d
        /\ (payload ∉ buffer (fst (snd out)))
        /\ ((fst out = Ok tt
             /\ buffer (fst (snd out)) = buffer e ++ [l]
             /\ heap (snd (snd out)) !! l = Some copy
             /\ (forall q, q <> l -> heap (snd (snd out)) !! q = heap w !! q)
             /\ trace (snd (snd out)) = trace w
             /\ requests (snd (snd out)) = requests w)
            \/ ((requests w < requests (snd (snd out)))%nat
                /\ (exists k,
                      heap (snd (snd out)) !! l
                      = Some (<["stm" := sent_timestamp (time_time k)]> copy))
                /\ (fst out = Ok tt -> buffer (fst (snd out)) = []))))
  /\ (method e = "get" ->
      let out := input payload (e, w) in
      dom (heap (snd (snd out))) = dom (heap w)
      /\ ((fst out = Ok tt
           /\ snd (snd out) = w
           /\ buffer (fst (snd out)) = buffer e ++ [payload])
          \/ ((requests w < requests (snd (snd out)))%nat
              /\ (exists k,
                    heap (snd (snd out)) !! payload
                    = Some (<["stm" := sent_timestamp (time_time k)]> d))
              /\ (fst out = Ok tt -> buffer (fst (snd out)) = []))))
  /\ (forall e0 w0 l0 d0,
        l0 ∈ buffer e0 -> heap w0 !! l0 = Some d0 ->
        exists k,
          heap (snd (snd (flush (e0, w0)))) !! l0
          = Some (<["stm" := sent_timestamp (time_time k)]> d0))
  /\ (method e = "post" -> payload ∉ buffer e ->
        let l := entry e w payload in
        l <> payload
        /\ heap w !! l = None
        /\ buffer (appended e d l) = buffer e ++ [l]
        /\ heap (with_entry e w payload) !! l = Some (stringified d)
        /\ (forall key, stringified d !! key = (fun v => VStr (py_str v)) <$> d !! key)
        /\ (forall ops,
              let st := snd (run_all (Input payload :: ops) (e, w)) in
              heap (snd st) !! payload = Some d /\ (payload ∉ buffer (fst st))))
  /\ (method e = "get" ->
      entry e w payload = payload
      /\ with_entry e w payload = w
      /\ buffer (appended e d payload) = buffer e ++ [payload]
      /\ (reached_limit (appended e d payload) = false ->
          input payload (e, w) = (Ok tt, (appended e d payload, w)))
      /\ (reached_limit (appended e d payload) = true ->
          exists k,
            heap (snd (snd (input payload (e, w)))) !! payload
            = Some (<["stm" := sent_timestamp (time_time k)]> d))).
Proof.
  intros Hd.
  assert (forall e0 w0 l0 d0,
        l0 ∈ buffer e0 -> heap w0 !! l0 = Some d0 ->
        exists k,
          heap (snd (snd (_flush_unsafe (e0, w0)))) !! l0
          = Some (<["stm" := sent_timestamp (time_time k)]> d0)) as Hflush.
  { intros e0 w0 l0 d0 Hl0 Hd0.
    destruct (_flush_unsafe_cases e0 w0) as (-> & _).
    destruct (stamped_lookup_in (buffer e0) (clock_reads w0) (heap w0) l0 d0 Hl0 Hd0)
      as (k & _ & Hk).
    by exists k. }
  split_and!.
  - intros Hp Hb. cbv zeta.
    set (l := fresh (dom (heap w))).
    assert (heap w !! l = None) as Hnone.
    { apply not_elem_of_dom, is_fresh. }
    assert (l <> payload) as Hne.
    { intros Heq. rewrite Heq in Hnone. by rewrite Hd in Hnone. }
    assert (entry e w payload = l) as Hentry.
    { unfold entry. by destruct (decide (method e = "post")). }
    pose proof (input_keeps payload d payload e w Hp Hb Hd) as Hkeep.
    cbv zeta in Hkeep. destruct Hkeep as (_ & Hout & Hsame).
    exists l. split; [done|]. split; [done|].
    rewrite input_run in Hout, Hsame |- *. cbv zeta in Hout, Hsame |- *.
    rewrite Hentry in Hout, Hsame |- *.
    set (e1 := appended e (deref (heap w) payload) l) in *.
    set (w1 := with_entry e w payload) in *.
    assert (heap w1 = <[l := (fun v => VStr (py_str v)) <$> d]> (heap w)) as Hh1.
    { subst w1. unfold with_entry, stringified, deref. rewrite Hd.
      by destruct (decide (method e = "post")). }
    assert (buffer e1 = buffer e ++ [l]) as Hb1.
    { subst e1. apply appended_buffer. }
    destruct (reached_limit e1) eqn:Hr.
    + split_and!; [|done|done|right].
      * destruct (_flush_unsafe_cases e1 w1) as (-> & _).
        by rewrite stamped_dom, Hh1, dom_insert_L.
      * split_and!.
        -- rewrite <- (with_entry_requests e w payload). fold w1.
           apply _flush_unsafe_requests.
           ++ subst e1. rewrite appended_method, Hp. unfold METHODS.
              rewrite !elem_of_cons. auto.
           ++ rewrite Hb1. by destruct (buffer e).
        -- destruct (_flush_unsafe_cases e1 w1) as (-> & _).
           destruct (stamped_lookup_in (buffer e1) (clock_reads w1) (heap w1) l
                       ((fun v => VStr (py_str v)) <$> d)) as (k & _ & Hk).
           { rewrite Hb1. apply elem_of_app. right. by apply list_elem_of_singleton. }
           { by rewrite Hh1, lookup_insert_eq. }
           by exists k.
        -- intros Hok.
           destruct (_flush_unsafe_cases e1 w1) as (_ & [(_ & ->)|(x & Hx & _)]).
           ++ apply reset_buffer.
           ++ by rewrite Hok in Hx.
    + cbn [fst snd] in *. split_and!; [|done|done|left].
      * by rewrite Hh1, dom_insert_L.
      * split_and!; [done|done| | | |].
        -- by rewrite Hh1, lookup_insert_eq.
        -- intros q Hq. by rewrite Hh1, lookup_insert_ne.
        -- subst w1. apply with_entry_trace.
        -- subst w1. apply with_entry_requests.
  - intros Hg. cbv zeta. rewrite input_run. cbv zeta.
    assert (entry e w payload = payload) as ->.
    { unfold entry. destruct (decide (method e = "post")) as [Hp|_]; [|done].
      by rewrite Hg in Hp. }
    assert (with_entry e w payload = w) as ->.
    { unfold with_entry. destruct (decide (method e = "post")) as [Hp|_]; [|done].
      by rewrite Hg in Hp. }
    set (e1 := appended e (deref (heap w) payload) payload).
    assert (buffer e1 = buffer e ++ [payload]) as Hb1.
    { subst e1. apply appended_buffer. }
    destruct (reached_limit e1) eqn:Hr.
    + split.
      * destruct (_flush_unsafe_cases e1 w) as (-> & _). apply stamped_dom.
      * right. split_and!.
        -- apply _flush_unsafe_requests.
           ++ subst e1. rewrite appended_method, Hg. unfold METHODS.
              rewrite !elem_of_cons. auto.
           ++ rewrite Hb1. by destruct (buffer e).
        -- apply Hflush; [|done]. rewrite Hb1. apply elem_of_app. right.
           by apply list_elem_of_singleton.
        -- intros Hok.
           destruct (_flush_unsafe_cases e1 w) as (_ & [(_ & ->)|(x & Hx & _)]).
           ++ apply reset_buffer.
           ++ by rewrite Hok in Hx.
    + cbn [fst snd]. split; [done|]. left. done.
  - apply Hflush.
  - intros Hp Hb. cbv zeta. unfold entry, with_entry.
    destruct (decide (method e = "post")) as [_|?]; [|done].
    assert (heap w !! fresh (dom (heap w)) = None) as Hnone.
    { apply not_elem_of_dom, is_fresh. }
    split_and!.
    + intros Heq. rewrite Heq in Hnone. by rewrite Hd in Hnone.
    + done.
    + apply appended_buffer.
    + cbn. rewrite lookup_insert_eq. unfold deref. by rewrite Hd.
    + apply stringified_lookup.
    + intros ops.
      destruct (run_all_keeps payload d (Input payload :: ops) e w Hp Hb Hd)
        as (_ & ? & ?).
      done.
  - intros Hg. unfold entry, with_entry.
    destruct (decide (method e = "post")) as [Hp|_]; [by rewrite Hg in Hp|].
    assert (input payload (e, w)
            = if reached_limit (appended e d payload)
              then _flush_unsafe (appended e d payload, w)
              else (Ok tt, (appended e d payload, w))) as Hin.
    { rewrite input_run. cbv zeta. unfold entry, with_entry, deref.
      destruct (decide (method e = "post")) as [Hp|_]; [by rewrite Hg in Hp|].
      by rewrite Hd. }
    split_and!; [done|done|apply appended_buffer| |].
    + intros Hr. by rewrite Hin, Hr.
    + intros Hr. rewrite Hin, Hr. apply Hflush; [|done].
      rewrite appended_buffer. apply elem_of_app. right. apply list_elem_of_singleton.
      done.
Qed.

(** *** What the two code paths do where the specification asks for more *)

(** A POST batch whose request fails: the failure callback gets the count 0
    and the list of the batch's events. *)
Lemma post_failure_routing e w :
  method e = "post" -> buffer e <> [] ->
  let h' := stamped (clock_reads w) (buffer e) (heap w) in
  let r := POST (endpoint e) (to_string PAYLOAD_DATA_SCHEMA (deref h' <$> buffer e))
                CONTENT_TYPE (request_timeout e) in
  let reply := transport (requests w) r in
  verdict reply = Ok false ->
  flush (e, w)
  = (Ok tt,
     (reset e,
      mkWorld h'
        (trace w ++ Sent r reply
           :: (if on_failure e then [OnFailure 0 (UnsentEvents (buffer e))] else []))
        (clock_reads w + length (buffer e))%nat (S (requests w)))).
Proof.
  intros Hp Hb h' r reply Hv. unfold flush.
  rewrite _flush_unsafe_run, send_events_post by done. cbv zeta.
  fold h'. fold r. fold reply. rewrite Hv. unfold callbacks. cbn.
  rewrite andb_false_r. destruct (buffer e) as [|l0 evts0]; [done|].
  cbn. by rewrite andb_true_r.
Qed.

(** Statuses and exceptions of aiohttp's own never leave an operation. *)
Lemma run_absorbs_client_errors op e w :
  raises_only_ClientError -> exists e' w', run op (e, w) = (Ok tt, (e', w')).
Proof.
  intros Hnet.
  assert (forall timeout flush_now, exists e' w',
            set_flush_timer timeout flush_now (e, w) = (Ok tt, (e', w'))) as Htimer.
  { intros timeout [|]; unfold set_flush_timer, when, bind, flush.
    - destruct (_flush_unsafe_ok e w Hnet) as (w' & ->). by do 2 eexists.
    - by do 2 eexists. }
  destruct op as [payload| | |timeout flush_now| |]; cbn [run].
  - rewrite input_run. cbv zeta. destruct (reached_limit _).
    + destruct (_flush_unsafe_ok (appended e (deref (heap w) payload) (entry e w payload))
                  (with_entry e w payload) Hnet) as (w' & ->).
      by do 2 eexists.
    + by do 2 eexists.
  - destruct (_flush_unsafe_ok e w Hnet) as (w' & Hf). do 2 eexists. exact Hf.
  - destruct (_flush_unsafe_ok e w Hnet) as (w' & Hf). do 2 eexists. exact Hf.
  - apply Htimer.
  - by do 2 eexists.
  - unfold tick, bind, self. cbn [fst snd].
    destruct (timer e) as [t|]; [|by do 2 eexists].
    destruct (cancelled t); [by do 2 eexists|]. apply Htimer.
Qed.

(** An exception that is not a [ClientError] leaves [flush] as it came, the
    buffer still full. *)
Lemma flush_lets_foreign_exceptions_through e w x :
  method e = "post" -> buffer e <> [] ->
  let h' := stamped (clock_reads w) (buffer e) (heap w) in
  let r := POST (endpoint e) (to_string PAYLOAD_DATA_SCHEMA (deref h' <$> buffer e))
                CONTENT_TYPE (request_timeout e) in
  transport (requests w) r = Fails x -> is_ClientError x = false ->
  fst (flush (e, w)) = Raise x /\ fst (snd (flush (e, w))) = e.
Proof.
  intros Hp Hb h' r Hr Hx. unfold flush.
  rewrite _flush_unsafe_run, send_events_post by done. cbv zeta.
  fold h'. fold r. rewrite Hr. cbn. by rewrite Hx.
Qed.

End Correctness.

(** ** The emitter at work on concrete batches *)

Lemma demo_raises_only_ClientError clock net :
  (forall n, absorbed (net n) = true) -> @raises_only_ClientError (demo clock net).
Proof. intros Hnet n r. apply Hnet. Qed.

Lemma always_absorbed code n : absorbed (always code n) = true.
Proof. reflexivity. Qed.

Lemma first_ok_then_500_absorbed n : absorbed (first_ok_then_500 n) = true.
Proof. by destruct n. Qed.

(** C1. A POST emitter with both callbacks and [buffer_size] 3 takes three
    events from a collector that answers 500: the one request fails, the
    success callback is not called, and the failure callback is called with
    0 and the list of the three buffered events, not with the serialized
    batch that went out as the body of the request. *)
Theorem post_failure_callback_gets_event_list :
  let R := demo clock0 (always 500) in
  let out := @run_all R [Input 1%positive; Input 2%positive; Input 3%positive]
               (post_emitter [], start_world R store) in
  let data := @to_string R PAYLOAD_DATA_SCHEMA
                (@deref R (heap (snd (snd out))) <$> [4%positive; 5%positive; 6%positive]) in
  fst out = Ok tt
  /\ trace (snd (snd out))
     = [Sent (POST "http://collector.example.com/com.snowplowanalytics.snowplow/tp2"
                   data CONTENT_TYPE (Some (Single 5)))
             (Status 500);
        OnFailure 0 (UnsentEvents [4%positive; 5%positive; 6%positive])]
  /\ OnFailure 0 (UnsentData data) ∉ trace (snd (snd out)).
Proof.
  cbv zeta. split_and!.
  - vm_compute. reflexivity.
  - vm_compute. reflexivity.
  - match goal with |- _ ∉ trace (snd (snd ?out)) =>
      assert (exists r, trace (snd (snd out))
                = [Sent r (Status 500);
                   OnFailure 0 (UnsentEvents [4%positive; 5%positive; 6%positive])])
        as (r & ->) by (eexists; vm_compute; reflexivity)
    end.
    rewrite !not_elem_of_cons. split_and!; [done|done|]. apply not_elem_of_nil.
Qed.

(** C2. A collector that lets a request run into its total timeout makes
    aiohttp raise [asyncio.TimeoutError], which is not a [ClientError]:
    [flush], and an [input] that reaches the threshold, hand that exception to
    their caller, call no callback and leave the batch in the buffer. *)
Theorem flush_raises_on_total_timeout :
  let R := demo clock0 times_out in
  let flushed := @flush R (post_emitter [1%positive], start_world R store) in
  let put := @input R 3%positive
               (get_emitter [1%positive], start_world R store) in
  fst flushed = Raise AsyncioTimeoutError
  /\ buffer (fst (snd flushed)) = [1%positive]
  /\ callback_calls (trace (snd (snd flushed))) = []
  /\ fst put = Raise AsyncioTimeoutError
  /\ buffer (fst (snd put)) = [1%positive; 3%positive]
  /\ callback_calls (trace (snd (snd put))) = [].
Proof. cbv zeta. split_and!; vm_compute; reflexivity. Qed.

(** C5. In GET mode an exception that is not a [ClientError] ends the
    loop over the batch.  A GET emitter with [buffer_size] 3 is given three
    events; the collector answers the first request with 200 and lets the
    second run into its total timeout.  The third input, which flushes,
    raises [asyncio.TimeoutError]: two requests were issued, for the first and
    the second event, none for the third; neither callback is called, not
    even the success callback for the event that was delivered; and the three
    events are still in the buffer. *)
Theorem get_flush_exits_early_on_total_timeout :
  let R := demo clock0 ok_then_times_out in
  let e := mkEmitter "http://collector.example.com/i" "get" 3 [] None None None
                     false true true None in
  let out := @run_all R [Input 1%positive; Input 2%positive; Input 3%positive]
               (e, start_world R store) in
  let h' := heap (snd (snd out)) in
  fst out = Raise AsyncioTimeoutError
  /\ trace (snd (snd out))
     = [Sent (GET "http://collector.example.com/i" (@deref R h' 1%positive) None)
             (Status 200);
        Sent (GET "http://collector.example.com/i" (@deref R h' 2%positive) None)
             (Fails AsyncioTimeoutError)]
  /\ requests (snd (snd out)) = 2%nat
  /\ callback_calls (trace (snd (snd out))) = []
  /\ buffer (fst (snd out)) = [1%positive; 2%positive; 3%positive].
Proof. cbv zeta. split_and!; vm_compute; reflexivity. Qed.


(** C3, as stated, fails: with the clock at 1700000000.75 seconds a flushed
    payload carries [stm] as the string "1700000000000", not as the integer
    1700000000750 nor as any other integer. *)
Lemma stm_is_a_string_of_whole_seconds :
  let R := demo clock0 (always 200) in
  let out := @flush R (get_emitter [3%positive], start_world R store) in
  heap (snd (snd out)) !! 3%positive ≫= (.!! "stm") = Some (VStr "1700000000000")
  /\ (forall n : Z,
        heap (snd (snd out)) !! 3%positive ≫= (.!! "stm") <> Some (VInt n)).
Proof.
  cbv zeta.
  assert (heap (snd (snd (@flush (demo clock0 (always 200))
             (get_emitter [3%positive], start_world (demo clock0 (always 200)) store))))
          !! 3%positive ≫= (.!! "stm") = Some (VStr "1700000000000")) as H.
  { vm_compute. reflexivity. }
  split; [exact H|]. intros n. rewrite H. discriminate.
Qed.

(** C4 at work: 11 bytes are queued and one event is buffered of the 10 that
    [buffer_size] allows; the next payload brings the count to 22, over the
    limit of 20, and is sent at once. *)
Lemma input_flushes_exactly_at_the_limits_witness :
  let R := demo clock0 (always 200) in
  let e := byte_limited_emitter [1%positive] 11 in
  let w := start_world R store in
  @input R 2%positive (e, w)
  = @_flush_unsafe R
      (@appended R e (@deref R (heap w) 2%positive) (@entry R e w 2%positive),
       @with_entry R e w 2%positive)
  /\ (requests w < requests (snd (snd (@input R 2%positive (e, w)))))%nat.
Proof.
  cbv zeta.
  assert ("post" ∈ METHODS) as Hm.
  { unfold METHODS. rewrite !elem_of_cons. auto. }
  destruct (@input_flushes_exactly_at_the_limits (demo clock0 (always 200))
              2%positive (byte_limited_emitter [1%positive] 11)
              (start_world (demo clock0 (always 200)) store) Hm)
    as (_ & _ & _ & Hbytes).
  apply (Hbytes 20); [reflexivity | by vm_compute | by vm_compute].
Defined.

(** X18 at work: of two buffered events the first request gets 200 and the
    second 500; on-success is called with the first event, on-failure with 1
    and the second. *)
Lemma get_flush_one_request_per_event_witness :
  let R := demo clock0 first_ok_then_500 in
  let out := @flush R (get_emitter [1%positive; 2%positive], start_world R store) in
  fst out = Ok tt
  /\ length (sent_requests (trace (snd (snd out)))) = 2%nat
  /\ callback_calls (trace (snd (snd out)))
     = [OnSuccess [1%positive]; OnFailure 1 (UnsentEvents [2%positive])].
Proof.
  cbv zeta.
  assert (fst (@flush (demo clock0 first_ok_then_500)
                 (get_emitter [1%positive; 2%positive],
                  start_world (demo clock0 first_ok_then_500) store)) = Ok tt)
    as Hok by (vm_compute; reflexivity).
  destruct (@get_flush_one_request_per_event (demo clock0 first_ok_then_500)
              (get_emitter [1%positive; 2%positive])
              (start_world (demo clock0 first_ok_then_500) store)
              (demo_raises_only_ClientError _ _ first_ok_then_500_absorbed)
              eq_refl ltac:(discriminate))
    as ((tl & Hw & _ & Hdone) & _).
  cbv zeta in Hw, Hdone. destruct (Hdone Hok) as (_ & ->).
  rewrite Hw. split_and!; [exact Hok| |]; vm_compute; reflexivity.
Defined.

(** C7 at work: an empty POST emitter is flushed against a collector that
    would refuse everything; nothing reaches it. *)
Lemma flush_empty_buffer_noop_witness :
  let R := demo clock0 (always 500) in
  @flush R (post_emitter [], start_world R store)
  = (Ok tt, (post_emitter [], start_world R store)).
Proof.
  cbv zeta.
  destruct (@flush_empty_buffer_noop (demo clock0 (always 500)) (post_emitter [])
              (start_world (demo clock0 (always 500)) store) eq_refl)
    as (Hrun & _).
  exact Hrun.
Defined.


(** C9 at work: a page view goes into a POST emitter that buffers 3.  The
    buffer then holds one reference, not the caller's, to a dictionary of
    strings; after an explicit flush the caller's dictionary is as it was. *)
Lemma post_buffers_a_copy_get_the_payload_itself_witness :
  let R := demo clock0 (always 200) in
  let w := start_world R store in
  let put := @input R 1%positive (post_emitter [], w) in
  let st := snd (@run_all R [Input 1%positive; Flush] (post_emitter [], w)) in
  (exists l,
     l <> 1%positive /\ buffer (fst (snd put)) = [l]
     /\ heap (snd (snd put)) !! l
        = Some {[ "e" := VStr "pv"; "url" := VStr "http://www.example.com";
                  "tid" := VStr "7" ]}
     /\ heap (snd (snd put)) !! 1%positive = Some page_view)
  /\ heap (snd st) !! 1%positive = Some page_view /\ (1%positive ∉ buffer (fst st)).
Proof.
  cbv zeta.
  destruct (@post_buffers_a_copy_get_the_payload_itself (demo clock0 (always 200))
              1%positive page_view (post_emitter [])
              (start_world (demo clock0 (always 200)) store) eq_refl)
    as (Hput & _ & _ & Hpost & _).
  split.
  - destruct (Hput eq_refl (not_elem_of_nil _))
      as (l & _ & Hl & _ & Hcaller & _ & [(_ & Hbuf & Hcopy & _)|(Hreq & _)]).
    + exists l. split_and!; [exact Hl|exact Hbuf| |exact Hcaller].
      rewrite Hcopy. reflexivity.
    + exfalso. revert Hreq. vm_compute. lia.
  - destruct (Hpost eq_refl (not_elem_of_nil _)) as (_ & _ & _ & _ & _ & Hops).
    exact (Hops [Flush]).
Defined.

(** C10 at work: a GET emitter with [buffer_size] 2 holds one event and
    takes a second. *)
Lemma buffer_stays_below_buffer_size_witness :
  let R := demo clock0 (always 200) in
  let out := @input R 2%positive (get_emitter [1%positive], start_world R store) in
  buffer_size (fst (snd out)) = 2
  /\ Z.of_nat (length (buffer (fst (snd out)))) < buffer_size (fst (snd out)).
Proof.
  cbv zeta.
  destruct (@run_absorbs_client_errors (demo clock0 (always 200)) (Input 2%positive)
              (get_emitter [1%positive])
              (start_world (demo clock0 (always 200)) store)
              (demo_raises_only_ClientError _ _ (always_absorbed 200)))
    as (e' & w' & Hrun).
  cbn [run] in Hrun. rewrite Hrun. cbn [fst snd].
  destruct (@buffer_stays_below_buffer_size (demo clock0 (always 200))
              (get_emitter [1%positive])
              (start_world (demo clock0 (always 200)) store) e' w'
              ltac:(by vm_compute))
    as (Hinput & _).
  destruct (Hinput 2%positive Hrun) as [Hsz Hlen]. split; [|exact Hlen].
  rewrite Hsz. reflexivity.
Defined.

(** * Further properties of the emitter *)

Section More.
Context {R : Runtime}.

(** ** The two request methods *)

(** X1. [http_post] and [http_get] issue exactly one request each, to the
    emitter's endpoint and with its timeout (the POST with the JSON content
    type), and touch nothing else; the flag they return is [True] exactly for
    a status from 200 to 399, [False] for every other status and for every
    [ClientError], and any other exception is raised to the caller. *)
Theorem http_requests_judged_by_status e w data l :
  let rp := POST (endpoint e) data CONTENT_TYPE (request_timeout e) in
  let rg := GET (endpoint e) (deref (heap w) l) (request_timeout e) in
  http_post data (e, w)
  = (verdict (transport (requests w) rp),
     (e, mkWorld (heap w) (trace w ++ [Sent rp (transport (requests w) rp)])
                 (clock_reads w) (S (requests w))))
  /\ http_get l (e, w)
     = (verdict (transport (requests w) rg),
        (e, mkWorld (heap w) (trace w ++ [Sent rg (transport (requests w) rg)])
                    (clock_reads w) (S (requests w))))
  /\ (forall reply,
        verdict reply = Ok true
        <-> exists code, reply = Status code /\ 200 <= code < 400)
  /\ (forall reply,
        verdict reply = Ok false
        <-> (exists code, reply = Status code /\ (code < 200 \/ 400 <= code))
            \/ (exists x, reply = Fails x /\ is_ClientError x = true))
  /\ (forall reply x,
        verdict reply = Raise x <-> reply = Fails x /\ is_ClientError x = false).
Proof.
  cbv zeta. split_and!.
  - unfold http_post, bind, self, request. cbn. by rewrite succeeded_verdict.
  - unfold http_get, bind, self, the_world, request. cbn. by rewrite succeeded_verdict.
  - intros [code|x]; cbn; unfold is_good_status_code.
    + split.
      * intros [= H]. apply andb_true_iff in H as [H1 H2].
        exists code. split; [done|]. lia.
      * intros (c & [= <-] & Hc). f_equal. apply andb_true_iff. lia.
    + split; [by destruct (is_ClientError x)|]. by intros (c & ? & _).
  - intros [code|x]; cbn; unfold is_good_status_code.
    + split.
      * intros [= H]. apply andb_false_iff in H. left. exists code.
        split; [done|]. lia.
      * intros [(c & [= <-] & Hc)|(y & ? & _)]; [|done].
        f_equal. apply andb_false_iff. lia.
    + split.
      * destruct (is_ClientError x) eqn:Hx; [|done]. intros _. right. by exists x.
      * intros [(c & ? & _)|(y & [= <-] & ->)]; done.
  - intros [code|y] x; cbn.
    + split; [done|]. by intros [? _].
    + destruct (is_ClientError y) eqn:Hy; split.
      * done.
      * intros [[= ->] Hx]. by rewrite Hy in Hx.
      * intros [= ->]. done.
      * by intros [[= ->] _].
Qed.

(** ** What a flush sends and whom it tells *)

(** X2. A POST flush is all or nothing: the one request carries the whole
    batch; when it succeeds the success callback (if registered) gets the
    whole batch in buffer order and the failure callback is not called, when
    it fails the failure callback (if registered) gets 0 and the whole batch
    and the success callback is not called. *)
Theorem post_flush_is_all_or_nothing e w ok :
  method e = "post" -> buffer e <> [] ->
  let h' := stamped (clock_reads w) (buffer e) (heap w) in
  let r := POST (endpoint e) (to_string PAYLOAD_DATA_SCHEMA (deref h' <$> buffer e))
                CONTENT_TYPE (request_timeout e) in
  let reply := transport (requests w) r in
  verdict reply = Ok ok ->
  flush (e, w)
  = (Ok tt,
     (reset e,
      mkWorld h'
        (trace w ++ Sent r reply
           :: (if ok
               then (if on_success e then [OnSuccess (buffer e)] else [])
               else (if on_failure e
                     then [OnFailure 0 (UnsentEvents (buffer e))] else [])))
        (clock_reads w + length (buffer e))%nat (S (requests w)))).
Proof.
  intros Hp Hb h' r reply Hv. unfold flush.
  rewrite _flush_unsafe_run, send_events_post by done. cbv zeta.
  fold h'. fold r. fold reply. rewrite Hv. unfold callbacks.
  destruct (buffer e) as [|l0 evts0] eqn:Hbuf; [done|].
  destruct ok; cbn; rewrite ?andb_false_r, ?andb_true_r; cbn;
    by rewrite ?app_nil_r.
Qed.

(** X3. Whatever the collector does, a flush issues no request twice and none
    out of order: the requests it sends are a leading stretch of one POST for
    the batch, or of one GET per buffered event in buffer order; their number
    is at most 1 in POST mode and at most the length of the buffer in GET
    mode. *)
Theorem flush_never_repeats_a_request e w :
  exists tl,
    trace (snd (snd (flush (e, w)))) = trace w ++ tl
    /\ sent_requests tl `prefix_of`
         requests_of e (stamped (clock_reads w) (buffer e) (heap w)) (buffer e)
    /\ (method e = "post" -> (length (sent_requests tl) <= 1)%nat)
    /\ (method e = "get" -> (length (sent_requests tl) <= length (buffer e))%nat)
    /\ (method e <> "post" -> method e <> "get" -> sent_requests tl = []).
Proof.
  unfold flush. rewrite _flush_unsafe_world.
  destruct (send_events_trace (buffer e) e w) as (tl & Ht & Hpre & _).
  exists tl. split_and!; [done|done| | |].
  - intros Hp. apply prefix_length in Hpre.
    destruct (decide (buffer e = [])) as [Hb|Hb].
    + rewrite Hb in Hpre. cbn in Hpre. lia.
    + rewrite requests_of_post in Hpre by done. done.
  - intros Hg. apply prefix_length in Hpre.
    by rewrite requests_of_get, length_fmap in Hpre.
  - intros Hp Hg. rewrite requests_of_other in Hpre by done.
    by apply prefix_nil_inv in Hpre.
Qed.

(** ** Exceptions that are not aiohttp's *)

Lemma get_each_stops evts : forall k s f e w x,
  let rs := get_replies (endpoint e) (request_timeout e) (heap w) (requests w) evts in
  (forall i y, (i < k)%nat -> rs !! i = Some y -> absorbed (snd y) = true) ->
  (exists l r, rs !! k = Some (l, r, Fails x)) ->
  is_ClientError x = false ->
  get_each evts s f (e, w)
  = (Raise x,
     (e, mkWorld (heap w) (trace w ++ (sent_of <$> take (S k) rs))
                 (clock_reads w) (requests w + S k)%nat)).
Proof.
  induction evts as [|l evts IH]; intros k s f e [h tr c r] x rs Hbefore Hk Hx.
  { by destruct Hk as (? & ? & ?). }
  subst rs. cbn [get_replies heap requests] in *.
  cbn [get_each]. unfold bind at 1.
  unfold http_get, bind, self, the_world, request. cbn.
  rewrite succeeded_verdict.
  set (rq := GET (endpoint e) (deref h l) (request_timeout e)) in *.
  destruct k as [|k].
  - destruct Hk as (l' & r' & [= _ _ Hr]). rewrite Hr. cbn. rewrite Hx.
    do 4 f_equal. lia.
  - assert (absorbed (transport r rq) = true) as Ha.
    { apply (Hbefore 0%nat (l, rq, transport r rq)); [lia|done]. }
    assert (forall s' f',
      get_each evts s' f'
        (e, mkWorld h (tr ++ [Sent rq (transport r rq)]) c (S r))
      = (Raise x,
         (e, mkWorld h
               ((tr ++ [Sent rq (transport r rq)])
                  ++ (sent_of <$> take (S k)
                        (get_replies (endpoint e) (request_timeout e) h (S r) evts)))
               c (S r + S k)%nat))) as Hrest.
    { intros s' f'.
      pose proof (IH k s' f' e
        (mkWorld h (tr ++ [Sent rq (transport r rq)]) c (S r)) x) as Hstep.
      cbn [heap trace clock_reads requests] in Hstep.
      apply Hstep; [|done|done].
      intros i y Hi Hy. apply (Hbefore (S i) y); [lia|done]. }
    destruct (transport r rq) as [code|y] eqn:Hr; cbn in *.
    + destruct (is_good_status_code code); rewrite Hrest, <- app_assoc; cbn;
        do 4 f_equal; lia.
    + rewrite Ha. rewrite Hrest, <- app_assoc. cbn. do 4 f_equal. lia.
Qed.

(** X6. A GET flush is cut short by the first exception that is not a
    [ClientError]: if the requests for the first [k] events end in statuses or
    [ClientError]s and the next one raises [x], the flush raises [x] after
    exactly [k + 1] requests; no request is issued for the remaining events,
    no callback is told of the events already sent, and the whole batch stays
    in the buffer. *)
Theorem get_flush_stops_at_foreign_exception e w k x :
  method e = "get" ->
  let evts := buffer e in
  let h' := stamped (clock_reads w) evts (heap w) in
  let rs := get_replies (endpoint e) (request_timeout e) h' (requests w) evts in
  (forall i y, (i < k)%nat -> rs !! i = Some y -> absorbed (snd y) = true) ->
  (exists l r, rs !! k = Some (l, r, Fails x)) ->
  is_ClientError x = false ->
  flush (e, w)
  = (Raise x,
     (e, mkWorld h' (trace w ++ (sent_of <$> take (S k) rs))
                 (clock_reads w + length evts)%nat (requests w + S k)%nat)).
Proof.
  intros Hg evts h' rs Hbefore Hk Hx.
  assert (evts <> []) as Hne.
  { intros Hnil. subst rs. rewrite Hnil in Hk. by destruct Hk as (? & ? & ?). }
  unfold flush. rewrite _flush_unsafe_run. fold evts.
  rewrite send_events_get_any by done.
  rewrite (get_each_stops evts k [] [] e _ x); [done|done|done|done].
Qed.

(** ** What no operation changes *)

Lemma same_configuration_refl e : same_configuration e e.
Proof. unfold same_configuration. tauto. Qed.

Lemma same_configuration_trans e1 e2 e3 :
  same_configuration e1 e2 -> same_configuration e2 e3 -> same_configuration e1 e3.
Proof.
  unfold same_configuration.
  intros (-> & -> & -> & -> & -> & -> & -> & -> & H1)
         (-> & -> & -> & -> & -> & -> & -> & -> & H2).
  split_and!; try done. by rewrite H2.
Qed.

Lemma same_configuration_reset e : same_configuration e (reset e).
Proof.
  unfold same_configuration, reset.
  destruct (bytes_queued e) eqn:Hq; cbn; rewrite ?Hq; split_and!; try done;
    split; intros _; by eexists.
Qed.

Lemma same_configuration_appended e d l : same_configuration e (appended e d l).
Proof.
  unfold same_configuration, appended.
  destruct (bytes_queued e) eqn:Hq; cbn; rewrite ?Hq; split_and!; try done;
    split; intros _; by eexists.
Qed.

Lemma same_configuration_set_timer e t : same_configuration e (set_timer t e).
Proof. unfold same_configuration. cbn. tauto. Qed.

Lemma same_configuration_flush e w :
  same_configuration e (fst (snd (_flush_unsafe (e, w)))).
Proof.
  destruct (_flush_unsafe_cases e w) as (_ & [(_ & ->)|(x & _ & ->)]).
  - apply same_configuration_reset.
  - apply same_configuration_refl.
Qed.

Lemma same_configuration_run op e w :
  same_configuration e (fst (snd (run op (e, w)))).
Proof.
  assert (forall timeout flush_now,
    same_configuration e (fst (snd (set_flush_timer timeout flush_now (e, w)))))
    as Htimer.
  { intros timeout [|]; unfold set_flush_timer, when, bind, flush.
    - pose proof (same_configuration_flush e w) as Hf.
      destruct (_flush_unsafe (e, w)) as [[[]|x] [e' w']]; cbn in *; [|done].
      eapply same_configuration_trans; [exact Hf|].
      apply same_configuration_set_timer.
    - cbn. apply same_configuration_set_timer. }
  destruct op as [payload| | |timeout flush_now| |]; cbn [run].
  - rewrite input_run. cbv zeta. destruct (reached_limit _).
    + eapply same_configuration_trans; [apply same_configuration_appended|].
      apply same_configuration_flush.
    + apply same_configuration_appended.
  - apply same_configuration_flush.
  - apply same_configuration_flush.
  - apply Htimer.
  - cbn. destruct (timer e); [apply same_configuration_set_timer|].
    apply same_configuration_refl.
  - unfold tick, bind, self. cbn [fst snd].
    destruct (timer e) as [t|]; [|apply same_configuration_refl].
    destruct (cancelled t); [apply same_configuration_refl|]. apply Htimer.
Qed.

Lemma same_configuration_run_all ops : forall e w,
  same_configuration e (fst (snd (run_all ops (e, w)))).
Proof.
  induction ops as [|op ops IH]; intros e w; [apply same_configuration_refl|].
  cbn [run_all]. unfold bind.
  pose proof (same_configuration_run op e w) as Hstep.
  destruct (run op (e, w)) as [[[]|x] [e' w']]; cbn [fst snd] in *; [|done].
  eapply same_configuration_trans; [exact Hstep|]. apply IH.
Qed.

(** X4. Against a collector whose failures are statuses or [ClientError]s, an
    emitter that has no callback registered never raises, whatever the
    sequence of operations: inputs, flushes, arming, cancelling and ticks of
    the timer. *)
Theorem operations_never_raise_on_client_errors ops : forall e w,
  raises_only_ClientError -> on_success e = false -> on_failure e = false ->
  fst (run_all ops (e, w)) = Ok tt.
Proof.
  induction ops as [|op ops IH]; intros e w Hnet Hs Hf; [done|].
  cbn [run_all]. unfold bind.
  pose proof (same_configuration_run op e w) as Hcfg.
  destruct (run_absorbs_client_errors op e w Hnet) as (e' & w' & Hrun).
  rewrite Hrun in Hcfg |- *. cbn [fst snd] in Hcfg.
  destruct Hcfg as (_ & _ & _ & _ & _ & _ & Hs' & Hf' & _).
  apply IH; [done| |]; congruence.
Qed.

(** X7. No sequence of operations, completed or cut short by an exception,
    changes what the constructor set: endpoint, method, buffer size, byte
    limit, request timeout, session and callbacks stay as they were, and the
    byte count stays tracked exactly if it was. *)
Theorem configuration_is_never_changed ops e w :
  let e' := fst (snd (run_all ops (e, w))) in
  endpoint e' = endpoint e /\ method e' = method e
  /\ buffer_size e' = buffer_size e /\ byte_limit e' = byte_limit e
  /\ request_timeout e' = request_timeout e
  /\ client_session e' = client_session e
  /\ on_success e' = on_success e /\ on_failure e' = on_failure e
  /\ (is_Some (bytes_queued e') <-> is_Some (bytes_queued e)).
Proof. apply same_configuration_run_all. Qed.

(** ** Buffering *)

Lemma counted_bytes_nonneg h ps : 0 <= counted_bytes h ps.
Proof. induction ps as [|p ps IH]; cbn; lia. Qed.

Lemma with_entry_lookup e w payload p :
  is_Some (heap w !! p) -> heap (with_entry e w payload) !! p = heap w !! p.
Proof.
  intros Hp. unfold with_entry. destruct (decide (method e = "post")); [|done].
  cbn. apply lookup_insert_ne. intros Heq. rewrite <- Heq in Hp.
  apply elem_of_dom in Hp. by apply is_fresh in Hp.
Qed.

Lemma counted_bytes_with_entry e w payload ps :
  Forall (fun p => is_Some (heap w !! p)) ps ->
  counted_bytes (heap (with_entry e w payload)) ps = counted_bytes (heap w) ps.
Proof.
  induction 1 as [|p ps Hp _ IH]; [done|].
  cbn. unfold deref. by rewrite with_entry_lookup, IH.
Qed.

Lemma appended_bytes_queued e d l :
  bytes_queued (appended e d l)
  = (fun b => b + Z.of_nat (String.length (str_payload d))) <$> bytes_queued e.
Proof. unfold appended. destruct (bytes_queued e) eqn:Hq; cbn; by rewrite ?Hq. Qed.

Lemma inputs_only_buffer ps : forall e w,
  Forall (fun p => is_Some (heap w !! p)) ps ->
  Z.of_nat (length (buffer e) + length ps) < buffer_size e ->
  (forall limit, byte_limit e = Some limit ->
                 byte_count e + counted_bytes (heap w) ps < limit) ->
  let out := run_all (Input <$> ps) (e, w) in
  fst out = Ok tt
  /\ length (buffer (fst (snd out))) = (length (buffer e) + length ps)%nat
  /\ bytes_queued (fst (snd out))
     = (fun b => b + counted_bytes (heap w) ps) <$> bytes_queued e
  /\ trace (snd (snd out)) = trace w
  /\ requests (snd (snd out)) = requests w
  /\ clock_reads (snd (snd out)) = clock_reads w
  /\ (method e <> "post" ->
      buffer (fst (snd out)) = buffer e ++ ps /\ snd (snd out) = w).
Proof.
  induction ps as [|p ps IH]; intros e w Hlive Hsize Hbytes.
  { cbn. split_and!; try done.
    - destruct (bytes_queued e); cbn; [f_equal; lia|done].
    - intros _. by rewrite app_nil_r. }
  apply Forall_cons in Hlive as [Hp Hlive]. cbn [length] in Hsize.
  cbn [fmap list_fmap run_all]. cbv zeta. unfold bind. cbn [run].
  rewrite input_run. cbv zeta.
  set (e1 := appended e (deref (heap w) p) (entry e w p)).
  set (w1 := with_entry e w p).
  pose proof (counted_bytes_nonneg (heap w) ps) as Hnn.
  assert (reached_limit e1 = false) as ->.
  { unfold reached_limit. subst e1.
    rewrite appended_byte_limit, appended_buffer, appended_buffer_size,
      appended_bytes_queued, length_app. cbn [length].
    destruct (byte_limit e) as [limit|] eqn:Hl.
    - specialize (Hbytes limit eq_refl). unfold byte_count in Hbytes.
      cbn [counted_bytes] in Hbytes.
      apply orb_false_iff. rewrite !Z.geb_leb. split; apply Z.leb_gt; [|lia].
      destruct (bytes_queued e); cbn in *; lia.
    - rewrite Z.geb_leb. apply Z.leb_gt. lia. }
  assert (Forall (fun q => is_Some (heap w1 !! q)) ps) as Hlive1.
  { eapply Forall_impl; [exact Hlive|]. intros q Hq. subst w1.
    by rewrite with_entry_lookup. }
  assert (counted_bytes (heap w1) ps = counted_bytes (heap w) ps) as Hcount.
  { subst w1. by apply counted_bytes_with_entry. }
  destruct (IH e1 w1 Hlive1) as (Hok & Hlen & Hq & Htr & Hrq & Hck & Hget).
  { subst e1. rewrite appended_buffer, appended_buffer_size, length_app.
    cbn [length]. lia. }
  { intros limit Hl. subst e1. rewrite appended_byte_limit in Hl.
    specialize (Hbytes limit Hl). cbn [counted_bytes] in Hbytes.
    unfold byte_count in *. rewrite appended_bytes_queued, Hcount.
    destruct (bytes_queued e); cbn in *; lia. }
  split_and!.
  - done.
  - rewrite Hlen. subst e1. rewrite appended_buffer, length_app. cbn. lia.
  - rewrite Hq, Hcount. subst e1. rewrite appended_bytes_queued.
    cbn [counted_bytes]. destruct (bytes_queued e); cbn; [f_equal; lia|done].
  - rewrite Htr. subst w1. apply with_entry_trace.
  - rewrite Hrq. subst w1. apply with_entry_requests.
  - rewrite Hck. subst w1. apply with_entry_clock_reads.
  - intros Hm. destruct Hget as [Hb Hw].
    { subst e1. by rewrite appended_method. }
    rewrite Hb, Hw. subst e1 w1. rewrite appended_buffer.
    unfold entry, with_entry. destruct (decide (method e = "post")); [done|].
    by rewrite <- app_assoc.
Qed.

(** X8. As long as neither threshold is reached, inputs only buffer: a run of
    inputs that keeps the buffer below [buffer_size] and the byte count below
    the byte limit (if one is set) completes without a request, a clock
    reading or a callback; the buffer grows by one entry per input, the byte
    count by the length of [str(payload)] of each payload, and in GET mode the
    buffer holds the callers' references in arrival order with the store
    untouched. *)
Theorem inputs_below_the_thresholds_only_buffer ps e w :
  Forall (fun p => is_Some (heap w !! p)) ps ->
  Z.of_nat (length (buffer e) + length ps) < buffer_size e ->
  (forall limit, byte_limit e = Some limit ->
                 byte_count e + counted_bytes (heap w) ps < limit) ->
  let out := run_all (Input <$> ps) (e, w) in
  fst out = Ok tt
  /\ length (buffer (fst (snd out))) = (length (buffer e) + length ps)%nat
  /\ bytes_queued (fst (snd out))
     = (fun b => b + counted_bytes (heap w) ps) <$> bytes_queued e
  /\ trace (snd (snd out)) = trace w
  /\ requests (snd (snd out)) = requests w
  /\ clock_reads (snd (snd out)) = clock_reads w
  /\ (method e <> "post" ->
      buffer (fst (snd out)) = buffer e ++ ps /\ snd (snd out) = w).
Proof. apply inputs_only_buffer. Qed.

(** X9. With [buffer_size] at most 1 the emitter does not buffer: every
    [input] flushes the payload it was given in the same call, together with
    whatever the buffer held, and a completed input leaves the buffer
    empty. *)
Theorem buffer_size_at_most_one_sends_every_input payload e w :
  buffer_size e <= 1 ->
  let e1 := appended e (deref (heap w) payload) (entry e w payload) in
  let w1 := with_entry e w payload in
  input payload (e, w) = _flush_unsafe (e1, w1)
  /\ (method e ∈ METHODS ->
      (requests w < requests (snd (snd (input payload (e, w)))))%nat)
  /\ (forall e' w', input payload (e, w) = (Ok tt, (e', w')) -> buffer e' = [])
  /\ (raises_only_ClientError ->
      exists w', input payload (e, w) = (Ok tt, (reset e1, w'))).
Proof.
  intros Hsize e1 w1.
  assert (reached_limit e1 = true) as Hr.
  { apply reached_limit_spec. right. subst e1.
    rewrite appended_buffer, appended_buffer_size, length_app. cbn. lia. }
  assert (input payload (e, w) = _flush_unsafe (e1, w1)) as Hin.
  { rewrite input_run. cbv zeta. fold e1 w1. by rewrite Hr. }
  split_and!.
  - done.
  - intros Hm. rewrite Hin, <- (with_entry_requests e w payload). fold w1.
    apply _flush_unsafe_requests.
    + subst e1. by rewrite appended_method.
    + subst e1. rewrite appended_buffer. by destruct (buffer e).
  - intros e' w' Hrun. rewrite Hin in Hrun.
    destruct (_flush_unsafe_cases e1 w1) as (_ & [(_ & He)|(x & Hx & _)]).
    + rewrite Hrun in He. cbn in He. subst e'. apply reset_buffer.
    + by rewrite Hrun in Hx.
  - intros Hnet. rewrite Hin. by apply _flush_unsafe_ok.
Qed.

Lemma as_collector_uri_run host protocol port meth :
  as_collector_uri host protocol port meth
  = if decide (host = "") then Raise (ValueError "No endpoint provided.")
    else Ok (uri_shape host protocol port meth).
Proof.
  unfold as_collector_uri, uri_shape, route.
  destruct host as [|a host]; [done|].
  destruct (decide (_ < 1)%nat) as [Hlt|_]; [cbn in Hlt; lia|].
  destruct (decide (String a host = "")) as [?|_]; [done|].
  by destruct port.
Qed.

(** X10. An emitter that [__init__] returns starts with an empty buffer and no
    timer; its endpoint is the collector URI of its arguments; its buffer
    size is the one given, and 10 in POST mode or 1 in any other mode when
    none is given; it counts bytes, from 0, exactly when a byte limit is
    given.  So a GET emitter built without a buffer size sends every payload
    in the [input] that brings it. *)
Theorem init_state host protocol port meth size succ fail limit time_out session e :
  __init__ host protocol port meth size succ fail limit time_out session = Ok e ->
  host <> ""
  /\ endpoint e = uri_shape host protocol port meth
  /\ method e = meth /\ buffer e = [] /\ timer e = None
  /\ buffer_size e
     = match size with
       | Some n => n
       | None => if decide (meth = "post") then 10 else 1
       end
  /\ byte_limit e = limit /\ bytes_queued e = (fun _ => 0) <$> limit
  /\ request_timeout e = time_out /\ client_session e = session
  /\ on_success e = succ /\ on_failure e = fail
  /\ (size = None -> meth <> "post" ->
      forall payload w,
        input payload (e, w)
        = _flush_unsafe (appended e (deref (heap w) payload) payload, w)).
Proof.
  unfold __init__.
  destruct (one_of protocol PROTOCOLS); [|done].
  destruct (one_of meth METHODS); [|done].
  rewrite as_collector_uri_run.
  destruct (decide (host = "")) as [|Hhost]; [done|].
  intros [= <-].
  cbn [endpoint method buffer_size buffer byte_limit bytes_queued request_timeout
       client_session on_success on_failure timer].
  split_and!; try done.
  intros -> Hm payload w. rewrite input_run. cbv zeta.
  unfold entry, with_entry. cbn [method].
  destruct (decide (meth = "post")); [done|].
  match goal with |- (if reached_limit ?e1 then _ else _) = _ =>
    assert (reached_limit e1 = true) as ->; [|done] end.
  apply reached_limit_spec. right.
  rewrite appended_buffer, appended_buffer_size. cbn. lia.
Qed.

(** ** The copy a POST emitter stores *)

(** ** The timer *)

(** X12. [set_flush_timer] without [flush_now] only stores a new timer for the
    interval: nothing is sent and the buffer is as it was.  With [flush_now]
    it flushes first and stores the timer after a completed flush; a flush
    that raises leaves [self.timer] as it was, so no new timer is created.
    [cancel_flush_timer] never flushes: it leaves the world, the buffer and
    the byte count alone, and does nothing at all when no timer is set. *)
Theorem set_flush_timer_arms_after_the_flush timeout e w :
  set_flush_timer timeout false (e, w)
  = (Ok tt, (set_timer (Some (mkTimer timeout false)) e, w))
  /\ (forall e' w',
        flush (e, w) = (Ok tt, (e', w')) ->
        set_flush_timer timeout true (e, w)
        = (Ok tt, (set_timer (Some (mkTimer timeout false)) e', w')))
  /\ (forall x,
        fst (flush (e, w)) = Raise x ->
        set_flush_timer timeout true (e, w) = flush (e, w)
        /\ timer (fst (snd (set_flush_timer timeout true (e, w)))) = timer e)
  /\ (fst (cancel_flush_timer (e, w)) = Ok tt
      /\ snd (snd (cancel_flush_timer (e, w))) = w
      /\ buffer (fst (snd (cancel_flush_timer (e, w)))) = buffer e
      /\ bytes_queued (fst (snd (cancel_flush_timer (e, w)))) = bytes_queued e)
  /\ (timer e = None -> cancel_flush_timer (e, w) = (Ok tt, (e, w))).
Proof.
  split; [reflexivity|]. split; [|split; [|split]].
  - intros e' w' Hf. unfold set_flush_timer, when, bind. by rewrite Hf.
  - intros x Hx. unfold set_flush_timer, when, bind.
    pose proof (_flush_unsafe_cases e w) as (_ & Hcases). unfold flush in *.
    destruct (_flush_unsafe (e, w)) as [[[]|y] [e' w']]; cbn in *; [done|].
    split; [done|]. destruct Hcases as [(? & _)|(z & _ & ->)]; done.
  - unfold cancel_flush_timer, modify_self. cbn. by destruct (timer e).
  - intros Ht. unfold cancel_flush_timer, modify_self. cbn. by rewrite Ht.
Qed.

(** ** The timestamp *)

(** X13. For a clock that is not before the epoch, [stm] is the decimal
    string of a whole number of seconds times 1000: the second in which the
    clock was read, so it understates the reading by less than a second, and
    two readings get the same [stm] exactly when they fall in the same
    second. *)
Theorem sent_timestamp_is_whole_seconds t :
  (0 <= t)%Q ->
  sent_timestamp t = VStr (str_int (int_of_float t * 1000))
  /\ 0 <= int_of_float t
  /\ (inject_Z (int_of_float t) <= t)%Q
  /\ (t < inject_Z (int_of_float t + 1))%Q
  /\ (forall t', sent_timestamp t = sent_timestamp t'
                 <-> int_of_float t = int_of_float t').
Proof.
  intros Ht. destruct t as [a b]. unfold Qle in Ht. cbn in Ht.
  unfold int_of_float. cbn [Qnum Qden].
  assert (0 <= a) as Ha by lia.
  rewrite Z.quot_div_nonneg by lia.
  split_and!.
  - unfold sent_timestamp, int_of_float. cbn [Qnum Qden].
    by rewrite Z.quot_div_nonneg by lia.
  - apply Z.div_pos; lia.
  - unfold Qle, inject_Z. cbn. rewrite Z.mul_1_r, Z.mul_comm.
    apply Z.mul_div_le. lia.
  - unfold Qlt, inject_Z. cbn. rewrite Z.mul_1_r.
    pose proof (Z.mul_succ_div_gt a (Z.pos b) ltac:(lia)). lia.
  - intros t'. unfold sent_timestamp, int_of_float. cbn [Qnum Qden].
    rewrite Z.quot_div_nonneg by lia. split.
    + intros [= H]. apply (inj pretty) in H. lia.
    + intros ->. reflexivity.
Qed.

(** ** From the inputs to the wire *)

Lemma run_all_app ops1 ops2 st :
  run_all (ops1 ++ ops2) st
  = match run_all ops1 st with
    | (Ok _, st') => run_all ops2 st'
    | (Raise x, st') => (Raise x, st')
    end.
Proof.
  revert st. induction ops1 as [|op ops1 IH]; intros st; [done|].
  cbn [app run_all]. unfold bind.
  destruct (run op st) as [[[]|x] st']; [apply IH|done].
Qed.

(** A loop over the batch that comes to its end has issued the request of
    every event. *)
Lemma get_each_complete evts : forall s f e w sf st',
  get_each evts s f (e, w) = (Ok sf, st') ->
  exists tl,
    trace (snd st') = trace w ++ tl
    /\ callback_calls tl = []
    /\ sent_requests tl
       = (fun l => GET (endpoint e) (deref (heap w) l) (request_timeout e)) <$> evts.
Proof.
  induction evts as [|l evts IH]; intros s f e [h tr c r] sf st'.
  - cbn. intros [= <- <-]. exists []. cbn. by rewrite app_nil_r.
  - cbn [get_each]. unfold bind at 1.
    unfold http_get, bind, self, the_world, request. cbn.
    rewrite succeeded_verdict.
    set (rq := GET (endpoint e) (deref h l) (request_timeout e)).
    destruct (verdict _) as [[|]|x]; cbn; [| |done]; intros Hrun;
      apply IH in Hrun as (tl & Ht & Hc & Hs); cbn in Ht, Hs;
      exists (Sent rq (transport r rq) :: tl); rewrite Ht, <- app_assoc;
      (split_and!; [done|done|]); by rewrite sent_requests_cons, Hs.
Qed.

(** So has a [send_events] that returns: all of [requests_of] went out. *)
Lemma send_events_complete evts e w st' :
  send_events evts (e, w) = (Ok tt, st') ->
  exists tl,
    trace (snd st') = trace w ++ tl
    /\ sent_requests tl
       = requests_of e (stamped (clock_reads w) evts (heap w)) evts.
Proof.
  destruct (decide (evts = [])) as [->|Hne].
  { cbn. intros [= <-]. exists []. cbn. by rewrite app_nil_r. }
  destruct (decide (method e = "post")) as [Hp|Hp].
  { rewrite send_events_post, requests_of_post by done. cbv zeta.
    destruct (verdict _) as [[|]|x]; [| |done]; intros [= <-]; cbn [snd trace];
      eexists; (split; [reflexivity|]);
      by rewrite sent_requests_cons, sent_requests_callbacks. }
  destruct (decide (method e = "get")) as [Hg|Hg].
  - rewrite send_events_get_any, requests_of_get by done.
    match goal with |- context [get_each ?a ?b ?c (?e0, ?w0)] =>
      pose proof (get_each_complete a b c e0 w0) as Hall;
      destruct (get_each a b c (e0, w0)) as [[sf|y] [e' w']] end; [|done].
    destruct (Hall sf (e', w') eq_refl) as (tl & Ht & _ & Hs).
    cbn [fst snd heap trace] in *. intros [= <-]. cbn [snd trace].
    exists (tl ++ callbacks e (fst sf) (snd sf)).
    rewrite Ht, <- app_assoc. split; [done|].
    by rewrite sent_requests_app, sent_requests_callbacks, app_nil_r.
  - rewrite send_events_other, requests_of_other by done.
    intros [= <-]. exists []. cbn. by rewrite app_nil_r.
Qed.

(** X14. A GET emitter with an empty buffer and no byte limit that is given
    as many payloads as its buffer size buffers all but the last and flushes
    with the last: [stm] is attached to the callers' own dictionaries, and
    the requests that go out are GET requests carrying these dictionaries, in
    the order the payloads arrived and at most one per payload.  There is
    exactly one per payload when every request ends in a status or a
    [ClientError], and whenever the run completes; a run that completes
    leaves the buffer empty, a run that raises leaves all the payloads in
    it.  With no callback registered and requests that end in a status or a
    [ClientError] the run does complete. *)
Theorem get_inputs_are_sent_in_arrival_order ps e w :
  method e = "get" -> byte_limit e = None ->
  buffer e = [] -> ps <> [] -> buffer_size e = Z.of_nat (length ps) ->
  Forall (fun p => is_Some (heap w !! p)) ps ->
  let out := run_all (Input <$> ps) (e, w) in
  let h' := stamped (clock_reads w) ps (heap w) in
  let expected :=
    (fun l => GET (endpoint e) (deref h' l) (request_timeout e)) <$> ps in
  heap (snd (snd out)) = h'
  /\ (exists tl,
        trace (snd (snd out)) = trace w ++ tl
        /\ sent_requests tl `prefix_of` expected
        /\ (raises_only_ClientError -> sent_requests tl = expected)
        /\ (fst out = Ok tt ->
            sent_requests tl = expected /\ buffer (fst (snd out)) = [])
        /\ (forall x, fst out = Raise x -> buffer (fst (snd out)) = ps))
  /\ (raises_only_ClientError -> on_success e = false -> on_failure e = false ->
      fst out = Ok tt).
Proof.
  intros Hg Hlimit Hbuf Hne Hsize Hlive.
  destruct ps as [|p0 ps0] using rev_ind; [done|]. clear IHps0 Hne.
  rename ps0 into ps. rename p0 into p.
  apply Forall_app in Hlive as [Hlive _].
  rewrite length_app in Hsize. cbn [length] in Hsize.
  cbv zeta. rewrite fmap_app. cbn [fmap list_fmap]. rewrite run_all_app.
  destruct (inputs_only_buffer ps e w Hlive) as (Hok & _ & _ & _ & _ & _ & Hget).
  { rewrite Hbuf. cbn. lia. }
  { intros limit Hl. by rewrite Hlimit in Hl. }
  destruct Hget as [Hb Hw]; [by rewrite Hg|].
  pose proof (same_configuration_run_all (Input <$> ps) e w)
    as (Hend & Hmeth & Hbs & Hbl & Hto & _).
  destruct (run_all (Input <$> ps) (e, w)) as [[[]|x] [e1 w1]];
    cbn [fst snd] in *; [|done].
  subst w1. rewrite Hbuf in Hb. cbn in Hb.
  cbn [run_all run]. unfold bind. rewrite input_run. cbv zeta.
  unfold entry, with_entry. rewrite Hmeth.
  destruct (decide (method e = "post")) as [Hp|_]; [by rewrite Hg in Hp|].
  set (e2 := appended e1 (deref (heap w) p) p).
  assert (buffer e2 = ps ++ [p]) as Hb2.
  { subst e2. by rewrite appended_buffer, Hb. }
  assert (reached_limit e2 = true) as ->.
  { apply reached_limit_spec. right. subst e2.
    rewrite appended_buffer, appended_buffer_size, Hb, Hbs, Hsize, length_app.
    cbn. lia. }
  assert (method e2 = "get") as Hg2.
  { subst e2. by rewrite appended_method, Hmeth. }
  assert (endpoint e2 = endpoint e /\ request_timeout e2 = request_timeout e)
    as [Hend2 Hto2].
  { subst e2. unfold appended. by destruct (bytes_queued e1). }
  assert (forall h,
    requests_of e2 h (ps ++ [p])
    = (fun l => GET (endpoint e) (deref h l) (request_timeout e)) <$> (ps ++ [p]))
    as Hreqs.
  { intros h. by rewrite requests_of_get, Hend2, Hto2. }
  assert (forall m : M unit,
    match m (e2, w) with
    | (Ok _, st') => run_all [] st'
    | (Raise x, st') => (Raise x, st')
    end = m (e2, w)) as Hlast.
  { intros m. by destruct (m (e2, w)) as [[[]|x] st']. }
  rewrite Hlast.
  destruct (_flush_unsafe_cases e2 w) as (Hheap & Hcases).
  rewrite Hb2 in Hheap.
  split_and!.
  - exact Hheap.
  - rewrite _flush_unsafe_world, Hb2.
    destruct (send_events_trace (ps ++ [p]) e2 w) as (tl & Ht & Hpre & Hall).
    rewrite Hreqs in Hpre, Hall.
    exists tl. split_and!; [done|done|done| |].
    + intros Hdone. split.
      * rewrite _flush_unsafe_run, Hb2 in Hdone.
        pose proof (send_events_complete (ps ++ [p]) e2 w) as Hc.
        destruct (send_events (ps ++ [p]) (e2, w)) as [[[]|x] st'] eqn:Hs;
          [|done].
        destruct (Hc st' eq_refl) as (tl' & Ht' & Hs').
        rewrite Hreqs in Hs'. cbn [snd] in Ht. rewrite Ht' in Ht.
        apply app_inv_head in Ht. by subst tl'.
      * destruct Hcases as [(_ & ->)|(x & Hx & _)].
        -- apply reset_buffer.
        -- by rewrite Hdone in Hx.
    + intros x Hx. destruct Hcases as [(Hdone & _)|(y & _ & ->)].
      * by rewrite Hdone in Hx.
      * exact Hb2.
  - intros Hnet _ _. by destruct (_flush_unsafe_ok e2 w Hnet) as (w' & ->).
Qed.

Lemma deref_alter_ne (h : gmap loc PayloadDict) f l l' :
  l <> l' -> deref (alter f l h) l' = deref h l'.
Proof. intros Hne. unfold deref. by rewrite lookup_alter_ne. Qed.

(** Stamping a batch of distinct, live references: the i-th gets the reading
    of the i-th clock tick. *)
Lemma stamped_nodup ls : forall n (h : gmap loc PayloadDict),
  NoDup ls -> Forall (fun l => is_Some (h !! l)) ls ->
  deref (stamped n ls h) <$> ls
  = imap (fun i l => <["stm" := sent_timestamp (time_time (n + i))]> (deref h l)) ls.
Proof.
  induction ls as [|l ls IH]; intros n h Hnd Hlive; [done|].
  apply NoDup_cons in Hnd as [Hl Hnd]. apply Forall_cons in Hlive as [[d Hd] Hlive].
  cbn [stamped fmap list_fmap imap]. f_equal.
  - unfold deref. rewrite stamped_lookup_notin by done.
    rewrite lookup_alter_eq, Hd. cbn. by rewrite Nat.add_0_r.
  - rewrite IH; [|done|].
    + apply imap_ext. intros i l' Hl'. cbn.
      rewrite deref_alter_ne.
      * do 3 f_equal. lia.
      * intros <-. apply Hl. by eapply list_elem_of_lookup_2.
    + eapply Forall_impl; [exact Hlive|]. intros l' Hl'. cbn in Hl'.
      destruct (decide (l = l')) as [<-|Hne].
      * rewrite lookup_alter_eq, Hd. by eexists.
      * by rewrite lookup_alter_ne.
Qed.

(** What a run of POST inputs below the threshold leaves behind: one new
    dictionary per payload, in arrival order, and the callers' dictionaries as
    they were. *)
Lemma post_inputs_buffer_copies ps : forall e w,
  method e = "post" -> byte_limit e = None ->
  Forall (fun p => is_Some (heap w !! p)) ps ->
  Z.of_nat (length (buffer e) + length ps) < buffer_size e ->
  exists e' w' ls,
    run_all (Input <$> ps) (e, w) = (Ok tt, (e', w'))
    /\ buffer e' = buffer e ++ ls
    /\ NoDup ls
    /\ Forall (fun l => heap w !! l = None) ls
    /\ Forall (fun l => is_Some (heap w' !! l)) ls
    /\ deref (heap w') <$> ls = (fun p => stringified (deref (heap w) p)) <$> ps
    /\ (forall q, is_Some (heap w !! q) -> heap w' !! q = heap w !! q)
    /\ trace w' = trace w /\ requests w' = requests w
    /\ clock_reads w' = clock_reads w.
Proof.
  induction ps as [|p ps IH]; intros e w Hp Hlimit Hlive Hsize.
  { exists e, w, []. cbn. rewrite app_nil_r. split_and!; try done. constructor. }
  apply Forall_cons in Hlive as [Hlivep Hlive]. cbn [length] in Hsize.
  cbn [fmap list_fmap run_all]. unfold bind. cbn [run].
  rewrite input_run. cbv zeta.
  set (l := fresh (dom (heap w))).
  assert (heap w !! l = None) as Hfresh.
  { apply not_elem_of_dom, is_fresh. }
  assert (entry e w p = l) as ->.
  { unfold entry. by destruct (decide (method e = "post")). }
  set (e1 := appended e (deref (heap w) p) l).
  set (w1 := with_entry e w p).
  assert (heap w1 = <[l := stringified (deref (heap w) p)]> (heap w)) as Hh1.
  { subst w1. unfold with_entry. by destruct (decide (method e = "post")). }
  assert (reached_limit e1 = false) as ->.
  { unfold reached_limit. subst e1.
    rewrite appended_byte_limit, Hlimit, appended_buffer, appended_buffer_size,
      length_app. cbn [length]. rewrite Z.geb_leb. apply Z.leb_gt. lia. }
  assert (forall q, is_Some (heap w !! q) -> heap w1 !! q = heap w !! q) as Hkeep1.
  { intros q Hq. subst w1. by apply with_entry_lookup. }
  destruct (IH e1 w1) as (e' & w' & ls & Hrun & Hb & Hnd & Hnew & Hlivels & Hcopies
                          & Hkeep & Htr & Hrq & Hck).
  { subst e1. by rewrite appended_method. }
  { subst e1. by rewrite appended_byte_limit. }
  { eapply Forall_impl; [exact Hlive|]. intros q Hq. cbn. by rewrite Hkeep1. }
  { subst e1. rewrite appended_buffer, appended_buffer_size, length_app.
    cbn [length]. lia. }
  assert (heap w1 !! l = Some (stringified (deref (heap w) p))) as Hl1.
  { by rewrite Hh1, lookup_insert_eq. }
  assert (l ∉ ls) as Hnotin.
  { intros Hin. rewrite Forall_forall in Hnew. specialize (Hnew l Hin).
    by rewrite Hl1 in Hnew. }
  exists e', w', (l :: ls). split_and!.
  - done.
  - rewrite Hb. subst e1. rewrite appended_buffer, <- app_assoc. done.
  - by apply NoDup_cons.
  - apply Forall_cons. split; [done|].
    eapply Forall_impl; [exact Hnew|]. intros l' Hl'. cbn in Hl'.
    rewrite Hh1 in Hl'. apply lookup_insert_None in Hl'. tauto.
  - apply Forall_cons. split; [|done].
    rewrite Hkeep by (by eexists). by eexists.
  - cbn [fmap list_fmap]. f_equal.
    + unfold deref at 1. rewrite Hkeep by (by eexists). by rewrite Hl1.
    + rewrite Hcopies. apply Forall_fmap_ext_1.
      eapply Forall_impl; [exact Hlive|]. intros q Hq. cbn.
      unfold deref at 1. by rewrite Hkeep1.
  - intros q Hq. rewrite Hkeep by (rewrite Hkeep1; done). by apply Hkeep1.
  - rewrite Htr. subst w1. apply with_entry_trace.
  - rewrite Hrq. subst w1. apply with_entry_requests.
  - rewrite Hck. subst w1. apply with_entry_clock_reads.
Qed.

(** X15. A POST emitter with an empty buffer and no byte limit that is given
    as many payloads as its buffer size sends them with the last input, in
    one POST request: its body is the envelope of the payloads in arrival
    order, each with its values in string form and with the [stm] of its own
    clock reading.  The callers' dictionaries are as they were, whatever the
    collector answers; when it answers with a status or a [ClientError] the
    run completes and the buffer is empty afterwards. *)
Theorem post_inputs_are_sent_as_one_batch ps e w :
  method e = "post" -> byte_limit e = None -> buffer e = [] -> ps <> [] ->
  buffer_size e = Z.of_nat (length ps) ->
  Forall (fun p => is_Some (heap w !! p)) ps ->
  let out := run_all (Input <$> ps) (e, w) in
  sent_requests (trace (snd (snd out)))
  = sent_requests (trace w)
    ++ [POST (endpoint e)
          (to_string PAYLOAD_DATA_SCHEMA
             (imap (fun i p =>
                      <["stm" := sent_timestamp (time_time (clock_reads w + i))]>
                        (stringified (deref (heap w) p))) ps))
          CONTENT_TYPE (request_timeout e)]
  /\ (forall q, is_Some (heap w !! q) -> heap (snd (snd out)) !! q = heap w !! q)
  /\ (raises_only_ClientError -> fst out = Ok tt /\ buffer (fst (snd out)) = []).
Proof.
  intros Hp Hlimit Hbuf Hne Hsize Hlive.
  destruct ps as [|p0 ps0] using rev_ind; [done|]. clear IHps0 Hne.
  rename ps0 into ps. rename p0 into p.
  apply Forall_app in Hlive as [Hlive Hlivep].
  rewrite Forall_singleton in Hlivep.
  rewrite length_app in Hsize. cbn [length] in Hsize.
  cbv zeta. rewrite fmap_app. cbn [fmap list_fmap]. rewrite run_all_app.
  destruct (post_inputs_buffer_copies ps e w Hp Hlimit Hlive)
    as (e1 & w1 & ls & Hrun & Hb & Hnd & Hnew & Hlivels & Hcopies & Hkeep
        & Htr & Hrq & Hck).
  { rewrite Hbuf. cbn. lia. }
  rewrite Hbuf in Hb. cbn in Hb.
  pose proof (same_configuration_run_all (Input <$> ps) e w)
    as (Hend & Hmeth & Hbs & Hbl & Hto & _).
  rewrite Hrun in *. cbn [fst snd] in *.
  assert (length ls = length ps) as Hlen.
  { rewrite <- (length_fmap (deref (heap w1)) ls), Hcopies. apply length_fmap. }
  cbn [run_all run]. unfold bind. rewrite input_run. cbv zeta.
  set (l := fresh (dom (heap w1))).
  assert (heap w1 !! l = None) as Hfresh.
  { apply not_elem_of_dom, is_fresh. }
  assert (entry e1 w1 p = l) as ->.
  { unfold entry. rewrite Hmeth. by destruct (decide (method e = "post")). }
  set (e2 := appended e1 (deref (heap w1) p) l).
  set (w2 := with_entry e1 w1 p).
  assert (heap w2 = <[l := stringified (deref (heap w1) p)]> (heap w1)) as Hh2.
  { subst w2. unfold with_entry. rewrite Hmeth.
    by destruct (decide (method e = "post")). }
  assert (buffer e2 = ls ++ [l]) as Hb2.
  { subst e2. by rewrite appended_buffer, Hb. }
  assert (reached_limit e2 = true) as ->.
  { apply reached_limit_spec. right. subst e2.
    rewrite appended_buffer, appended_buffer_size, Hb, Hbs, Hsize, length_app, Hlen.
    cbn. lia. }
  assert (method e2 = "post") as Hp2.
  { subst e2. by rewrite appended_method, Hmeth. }
  assert (endpoint e2 = endpoint e /\ request_timeout e2 = request_timeout e)
    as [Hend2 Hto2].
  { subst e2. unfold appended. by destruct (bytes_queued e1). }
  assert (l ∉ ls) as Hnotin.
  { intros Hin. rewrite Forall_forall in Hlivels.
    destruct (Hlivels l Hin) as [d Hd]. by rewrite Hfresh in Hd. }
  assert (NoDup (ls ++ [l])) as Hnd2.
  { apply NoDup_app. split_and!; [done| |apply NoDup_singleton].
    intros l' Hl' Hin. apply list_elem_of_singleton in Hin as ->. done. }
  assert (Forall (fun l' => is_Some (heap w2 !! l')) (ls ++ [l])) as Hlive2.
  { apply Forall_app. split.
    - eapply Forall_impl; [exact Hlivels|]. intros l' Hl'. cbn in *.
      rewrite Hh2, lookup_insert_ne; [done|]. intros <-.
      destruct Hl' as [d Hd]. by rewrite Hfresh in Hd.
    - apply Forall_singleton. rewrite Hh2, lookup_insert_eq. by eexists. }
  assert (deref (heap w2) <$> (ls ++ [l])
          = (fun q => stringified (deref (heap w) q)) <$> (ps ++ [p])) as Hcopies2.
  { rewrite !fmap_app. f_equal.
    - rewrite <- Hcopies. apply Forall_fmap_ext_1.
      eapply Forall_impl; [exact Hlivels|]. intros l' Hl'. cbn in *.
      unfold deref. rewrite Hh2, lookup_insert_ne; [done|]. intros <-.
      destruct Hl' as [d Hd]. by rewrite Hfresh in Hd.
    - cbn. unfold deref at 1. rewrite Hh2, lookup_insert_eq. cbn.
      unfold deref. by rewrite (Hkeep p Hlivep). }
  assert (clock_reads w2 = clock_reads w) as Hck2.
  { subst w2. by rewrite with_entry_clock_reads. }
  assert (trace w2 = trace w) as Htr2.
  { subst w2. by rewrite with_entry_trace. }
  set (h' := stamped (clock_reads w2) (ls ++ [l]) (heap w2)).
  assert (deref h' <$> (ls ++ [l])
          = imap (fun i q =>
                    <["stm" := sent_timestamp (time_time (clock_reads w + i))]>
                      (stringified (deref (heap w) q))) (ps ++ [p])) as Hdata.
  { subst h'. rewrite stamped_nodup by done. rewrite Hck2.
    transitivity (imap (fun i d =>
        <["stm" := sent_timestamp (time_time (clock_reads w + i))]> d)
        (deref (heap w2) <$> (ls ++ [l]))).
    - rewrite imap_fmap. by apply imap_ext.
    - rewrite Hcopies2, imap_fmap. by apply imap_ext. }
  assert (forall q, is_Some (heap w !! q) -> h' !! q = heap w !! q) as Hcallers.
  { intros q Hq. subst h'. rewrite stamped_lookup_notin.
    - rewrite Hh2, lookup_insert_ne; [by apply Hkeep|].
      intros <-. rewrite Hkeep in Hfresh by done. destruct Hq as [d Hd].
      by rewrite Hd in Hfresh.
    - intros Hin. apply elem_of_app in Hin as [Hin|Hin].
      + rewrite Forall_forall in Hnew. specialize (Hnew q Hin).
        destruct Hq as [d Hd]. by rewrite Hd in Hnew.
      + apply list_elem_of_singleton in Hin as ->.
        rewrite Hkeep in Hfresh by done. destruct Hq as [d Hd].
        by rewrite Hd in Hfresh. }
  rewrite _flush_unsafe_run, Hb2.
  rewrite send_events_post; [|done|by destruct ls].
  cbv zeta. fold h'. rewrite Hdata, Hend2, Hto2, Htr2.
  split_and!.
  - destruct (verdict _) as [[|]|x]; cbn [run_all]; unfold ret;
      cbn [fst snd trace];
      rewrite sent_requests_app, sent_requests_cons, ?sent_requests_callbacks; done.
  - intros q Hq.
    destruct (verdict _) as [[|]|x]; cbn [run_all]; unfold ret;
      cbn [fst snd heap]; by apply Hcallers.
  - intros Hnet.
    match goal with |- context [verdict (transport ?n ?r)] =>
      pose proof (Hnet n r) as Ha; destruct (transport n r) as [c|x] end;
      cbn [verdict absorbed] in *.
    + destruct (is_good_status_code c); cbn [run_all]; unfold ret;
        cbn [fst snd]; (split; [done|apply reset_buffer]).
    + rewrite Ha. cbn [run_all]. unfold ret. cbn [fst snd].
      split; [done|apply reset_buffer].
Qed.

(** ** Callbacks *)

Lemma get_each_partition evts : forall s f e w s' f' st',
  get_each evts s f (e, w) = (Ok (s', f'), st') ->
  s' ++ f' ≡ₚ s ++ f ++ evts.
Proof.
  induction evts as [|l evts IH]; intros s f e [h tr c r] s' f' st'.
  { cbn. intros [= <- <- _]. by rewrite app_nil_r. }
  cbn [get_each]. unfold bind at 1.
  unfold http_get, bind, self, the_world, request. cbn.
  rewrite succeeded_verdict.
  destruct (verdict _) as [[|]|x]; cbn; [| |done]; intros Hrun;
    apply IH in Hrun; rewrite Hrun.
  - rewrite <- !app_assoc. cbn.
    rewrite (Permutation_middle f evts l). done.
  - rewrite <- !app_assoc. done.
Qed.

Lemma callback_calls_cons_sent r reply tl :
  callback_calls (Sent r reply :: tl) = callback_calls tl.
Proof. reflexivity. Qed.

(** X16. When a flush completes, each callback has been called at most once
    in it, the success callback before the failure callback, neither with an
    empty list, and the failure callback with the length of the success list
    as its count.  For method get or post the two lists - taking the list of
    a callback that is not registered, or has nothing to report, along - hold
    every buffered event exactly once. *)
Theorem callbacks_account_for_the_batch e w e' w' :
  flush (e, w) = (Ok tt, (e', w')) ->
  exists tl success_events failure_events,
    trace w' = trace w ++ tl
    /\ callback_calls tl
       = (if on_success e && (0 <? length success_events)%nat
          then [OnSuccess success_events] else [])
         ++ (if on_failure e && (0 <? length failure_events)%nat
             then [OnFailure (Z.of_nat (length success_events))
                             (UnsentEvents failure_events)]
             else [])
    /\ (method e ∈ METHODS -> success_events ++ failure_events ≡ₚ buffer e).
Proof.
  unfold flush.
  assert (forall s f, callback_calls (callbacks e s f)
    = (if on_success e && (0 <? length s)%nat then [OnSuccess s] else [])
      ++ (if on_failure e && (0 <? length f)%nat
          then [OnFailure (Z.of_nat (length s)) (UnsentEvents f)] else []))
    as Hcalls.
  { intros s f. by rewrite callback_calls_callbacks. }
  rewrite _flush_unsafe_run.
  destruct (decide (buffer e = [])) as [Hb|Hb].
  { rewrite Hb. cbn. intros [= _ <-]. exists [], [], [].
    rewrite app_nil_r, !andb_false_r. split_and!; done. }
  destruct (decide (method e = "post")) as [Hp|Hp].
  { rewrite send_events_post by done. cbv zeta.
    destruct (verdict _) as [[|]|x]; [| |done]; intros [= _ <-]; cbn [trace].
    - eexists _, (buffer e), []. split; [reflexivity|].
      split; [by rewrite callback_calls_cons_sent, Hcalls|].
      intros _. by rewrite app_nil_r.
    - eexists _, [], (buffer e). split; [reflexivity|].
      split; [by rewrite callback_calls_cons_sent, Hcalls|done]. }
  destruct (decide (method e = "get")) as [Hg|Hg].
  - rewrite send_events_get_any by done.
    match goal with |- context [get_each ?a ?b ?c (?e0, ?w0)] =>
      destruct (get_each_trace a b c e0 w0) as (tl & Ht & Hc & _);
      pose proof (get_each_partition a b c e0 w0) as Hperm;
      destruct (get_each a b c (e0, w0)) as [[[s f]|y] [e1 w1]] end;
      cbn [fst snd trace] in *; [|done].
    intros [= _ <-]. cbn [trace].
    exists (tl ++ callbacks e s f), s, f. rewrite Ht, <- app_assoc.
    split; [done|]. rewrite callback_calls_app, Hc. cbn [app].
    split; [apply Hcalls|].
    intros _. by rewrite (Hperm s f _ eq_refl).
  - rewrite send_events_other by done. intros [= _ <-].
    exists [], [], []. rewrite app_nil_r, !andb_false_r.
    split_and!; try done. intros Hin. unfold METHODS in Hin.
    rewrite !elem_of_cons, elem_of_nil in Hin. by destruct Hin as [?|[?|?]].
Qed.

(** X17. Flushing twice is flushing once: after a completed flush a second
    flush finds the buffer empty, sends nothing, calls nobody and leaves the
    emitter and the world as the first flush left them. *)
Theorem flush_after_flush_is_a_noop e w e' w' :
  flush (e, w) = (Ok tt, (e', w')) ->
  flush (e', w') = (Ok tt, (e', w'))
  /\ run_all [Flush; Flush] (e, w) = run_all [Flush] (e, w).
Proof.
  intros Hf.
  assert (e' = reset e) as ->.
  { destruct (_flush_unsafe_cases e w) as (_ & [(_ & He)|(x & Hx & _)]);
      unfold flush in Hf; rewrite Hf in *; [done|done]. }
  assert (flush (reset e, w') = (Ok tt, (reset e, w'))) as Hsecond.
  { unfold flush. rewrite _flush_unsafe_run, reset_buffer. cbn.
    f_equal. f_equal. unfold reset. destruct (bytes_queued e) eqn:Hq; cbn; [done|].
    by rewrite Hq. }
  split; [done|].
  cbn [run_all run]. unfold bind. rewrite Hf. by rewrite Hsecond.
Qed.

End More.

(** ** The further properties at work *)

(** X2 at work: two buffered events, a collector that answers 200. *)
Lemma post_flush_is_all_or_nothing_witness :
  let R := demo clock0 (always 200) in
  callback_calls
    (trace (snd (snd (@flush R (post_emitter [1%positive; 2%positive],
                                start_world R store)))))
  = [OnSuccess [1%positive; 2%positive]].
Proof.
  cbv zeta.
  rewrite (@post_flush_is_all_or_nothing (demo clock0 (always 200))
             (post_emitter [1%positive; 2%positive])
             (start_world (demo clock0 (always 200)) store) true
             eq_refl ltac:(discriminate) eq_refl).
  reflexivity.
Defined.

(** X4 at work: inputs, flushes and timer operations of an emitter without
    callbacks, against a collector that refuses everything. *)
Lemma operations_never_raise_on_client_errors_witness :
  let R := demo clock0 (always 500) in
  let e := mkEmitter "http://collector.example.com/i" "get" 2 [] None None None
                     false false false None in
  fst (@run_all R [Input 1%positive; Input 2%positive; Flush;
                   SetFlushTimer 5 true; Input 3%positive; Tick; CancelFlushTimer]
         (e, start_world R store)) = Ok tt.
Proof.
  cbv zeta.
  apply (@operations_never_raise_on_client_errors (demo clock0 (always 500)));
    [exact (demo_raises_only_ClientError _ _ (always_absorbed 500))
    | reflexivity | reflexivity].
Defined.

(** X6 at work: of three buffered events the first is sent, the request for
    the second times out, the third is never tried. *)
Lemma get_flush_stops_at_foreign_exception_witness :
  let R := demo clock0 ok_then_times_out in
  let out := @flush R (mkEmitter "http://collector.example.com/i" "get" 5
                         [1%positive; 2%positive; 3%positive] None None None
                         false true true None,
                       start_world R store) in
  fst out = Raise AsyncioTimeoutError
  /\ requests (snd (snd out)) = 2%nat
  /\ buffer (fst (snd out)) = [1%positive; 2%positive; 3%positive].
Proof.
  cbv zeta.
  rewrite (@get_flush_stops_at_foreign_exception (demo clock0 ok_then_times_out)
             (mkEmitter "http://collector.example.com/i" "get" 5
                [1%positive; 2%positive; 3%positive] None None None
                false true true None)
             (start_world (demo clock0 ok_then_times_out) store)
             1%nat AsyncioTimeoutError eq_refl).
  - split_and!; reflexivity.
  - intros i y Hi Hy. destruct i as [|i]; [|lia].
    cbn in Hy. injection Hy as <-. reflexivity.
  - do 2 eexists. reflexivity.
  - reflexivity.
Defined.

Lemma store_live ps :
  Forall (fun p => (p <=? 3)%positive = true) ps ->
  Forall (fun p => is_Some (store !! p)) ps.
Proof.
  intros Hps. eapply Forall_impl; [exact Hps|]. intros p Hp. cbn in Hp.
  destruct p as [[p|p|]|[p|p|]|]; try discriminate Hp; by eexists.
Qed.

(** X8 at work: two payloads into a POST emitter that buffers 3. *)
Lemma inputs_below_the_thresholds_only_buffer_witness :
  let R := demo clock0 (always 200) in
  let out := @run_all R (Input <$> [1%positive; 2%positive])
               (post_emitter [], start_world R store) in
  fst out = Ok tt
  /\ length (buffer (fst (snd out))) = 2%nat
  /\ requests (snd (snd out)) = 0%nat.
Proof.
  cbv zeta.
  destruct (@inputs_below_the_thresholds_only_buffer (demo clock0 (always 200))
              [1%positive; 2%positive] (post_emitter [])
              (start_world (demo clock0 (always 200)) store))
    as (Hok & Hlen & _ & _ & Hrq & _).
  - apply store_live. by repeat constructor.
  - by vm_compute.
  - intros limit Hl. discriminate Hl.
  - split_and!; [exact Hok|exact Hlen|exact Hrq].
Defined.

(** X9 at work: a GET emitter with the default buffer size of 1. *)
Lemma buffer_size_at_most_one_sends_every_input_witness :
  let R := demo clock0 (always 200) in
  (requests (start_world R store)
   < requests (snd (snd (@input R 1%positive
                           (default_get_emitter, start_world R store)))))%nat.
Proof.
  cbv zeta.
  destruct (@buffer_size_at_most_one_sends_every_input (demo clock0 (always 200))
              1%positive default_get_emitter
              (start_world (demo clock0 (always 200)) store) ltac:(by vm_compute))
    as (_ & Hsent & _).
  apply Hsent. unfold METHODS. cbn. apply list_elem_of_here.
Defined.

(** X10 at work: the constructor called with a host and the method only. *)
Lemma init_state_witness :
  buffer_size default_get_emitter = 1
  /\ endpoint default_get_emitter = "http://collector.example.com/i"
  /\ bytes_queued default_get_emitter = None.
Proof.
  destruct (@init_state (demo clock0 (always 200))
              "collector.example.com" "http" None "get" None true true None None
              false default_get_emitter eq_refl)
    as (_ & Hend & _ & _ & _ & Hsize & _ & Hq & _).
  split_and!; [exact Hsize|exact Hend|exact Hq].
Defined.

(** X13 at work: the clock at 1700000000.75 seconds. *)
Lemma sent_timestamp_is_whole_seconds_witness :
  @sent_timestamp (demo clock0 (always 200)) (clock0 0) = VStr "1700000000000"
  /\ (inject_Z 1700000000 <= clock0 0)%Q
  /\ (clock0 0 < inject_Z 1700000001)%Q.
Proof.
  destruct (@sent_timestamp_is_whole_seconds (demo clock0 (always 200)) (clock0 0)
              ltac:(by vm_compute))
    as (Hstm & _ & Hle & Hlt & _).
  split_and!; [rewrite Hstm; reflexivity|exact Hle|exact Hlt].
Defined.

(** X14 at work: two payloads into a GET emitter that buffers 2; the second
    input sends both. *)
Lemma get_inputs_are_sent_in_arrival_order_witness :
  let R := demo clock0 first_ok_then_500 in
  let out := @run_all R (Input <$> [1%positive; 2%positive])
               (get_emitter [], start_world R store) in
  buffer (fst (snd out)) = []
  /\ exists tl,
       trace (snd (snd out)) = tl
       /\ sent_requests tl
          = (fun l => GET "http://collector.example.com/i"
                          (@deref R (heap (snd (snd out))) l) None)
            <$> [1%positive; 2%positive].
Proof.
  cbv zeta.
  assert (fst (@run_all (demo clock0 first_ok_then_500)
                 (Input <$> [1%positive; 2%positive])
                 (get_emitter [], start_world (demo clock0 first_ok_then_500) store))
          = Ok tt) as Hok by (vm_compute; reflexivity).
  destruct (@get_inputs_are_sent_in_arrival_order (demo clock0 first_ok_then_500)
              [1%positive; 2%positive] (get_emitter [])
              (start_world (demo clock0 first_ok_then_500) store)
              eq_refl eq_refl eq_refl ltac:(discriminate) eq_refl)
    as (Hheap & (tl & Ht & _ & _ & Hdone & _) & _).
  - apply store_live. by repeat constructor.
  - cbv zeta in Hheap, Ht, Hdone. destruct (Hdone Hok) as (Hsent & Hbuf).
    split; [exact Hbuf|]. exists tl. split; [exact Ht|].
    rewrite Hsent, Hheap. reflexivity.
Defined.

(** X15 at work: three payloads into a POST emitter that buffers 3; the page
    view the caller holds is as it was. *)
Lemma post_inputs_are_sent_as_one_batch_witness :
  let R := demo clock0 (always 200) in
  let out := @run_all R (Input <$> [1%positive; 2%positive; 3%positive])
               (post_emitter [], start_world R store) in
  fst out = Ok tt
  /\ length (sent_requests (trace (snd (snd out)))) = 1%nat
  /\ heap (snd (snd out)) !! 1%positive = Some page_view.
Proof.
  cbv zeta.
  destruct (@post_inputs_are_sent_as_one_batch (demo clock0 (always 200))
              [1%positive; 2%positive; 3%positive] (post_emitter [])
              (start_world (demo clock0 (always 200)) store)
              eq_refl eq_refl eq_refl ltac:(discriminate) eq_refl)
    as (Hsent & Hkeep & Hok).
  - apply store_live. by repeat constructor.
  - destruct (Hok (demo_raises_only_ClientError _ _ (always_absorbed 200)))
      as [Hrun _].
    split_and!; [exact Hrun|by rewrite Hsent|].
    rewrite Hkeep; [reflexivity|]. by eexists.
Defined.

(** X16 at work: of two buffered events the first request gets 200 and the
    second 500. *)
Lemma callbacks_account_for_the_batch_witness :
  let R := demo clock0 first_ok_then_500 in
  let out := @flush R (get_emitter [1%positive; 2%positive], start_world R store) in
  exists tl success_events failure_events,
    trace (snd (snd out)) = tl
    /\ callback_calls tl
       = (if (0 <? length success_events)%nat
          then [OnSuccess success_events] else [])
         ++ (if (0 <? length failure_events)%nat
             then [OnFailure (Z.of_nat (length success_events))
                             (UnsentEvents failure_events)]
             else [])
    /\ success_events ++ failure_events ≡ₚ [1%positive; 2%positive].
Proof.
  cbv zeta.
  destruct (@callbacks_account_for_the_batch (demo clock0 first_ok_then_500)
              (get_emitter [1%positive; 2%positive])
              (start_world (demo clock0 first_ok_then_500) store)
              (fst (snd (@flush (demo clock0 first_ok_then_500)
                           (get_emitter [1%positive; 2%positive],
                            start_world (demo clock0 first_ok_then_500) store))))
              (snd (snd (@flush (demo clock0 first_ok_then_500)
                           (get_emitter [1%positive; 2%positive],
                            start_world (demo clock0 first_ok_then_500) store)))))
    as (tl & s & f & Ht & Hc & Hperm).
  - vm_compute. reflexivity.
  - exists tl, s, f. split_and!; [exact Ht|exact Hc|].
    apply Hperm. unfold METHODS. rewrite !elem_of_cons. auto.
Defined.

(** X17 at work: two buffered events and two flushes in a row. *)
Lemma flush_after_flush_is_a_noop_witness :
  let R := demo clock0 (always 200) in
  @run_all R [Flush; Flush] (get_emitter [1%positive; 2%positive], start_world R store)
  = @run_all R [Flush] (get_emitter [1%positive; 2%positive], start_world R store).
Proof.
  cbv zeta.
  destruct (@run_absorbs_client_errors (demo clock0 (always 200)) Flush
              (get_emitter [1%positive; 2%positive])
              (start_world (demo clock0 (always 200)) store)
              (demo_raises_only_ClientError _ _ (always_absorbed 200)))
    as (e' & w' & Hrun).
  cbn [run] in Hrun.
  destruct (@flush_after_flush_is_a_noop (demo clock0 (always 200))
              (get_emitter [1%positive; 2%positive])
              (start_world (demo clock0 (always 200)) store) e' w' Hrun)
    as (_ & Htwice).
  exact Htwice.
Defined.
